(** * catchall: the key-observable registry of [observable.go]

    A shallow embedding of package [catchall] (one file, [observable.go]) and
    the properties of its observer registry.

    The program is Go.  Three points of the language decide what the code
    does, and the embedding keeps each of them explicit:

    - [Observe] and [Notify] have _value_ receivers, so every call works on a
      copy of the [ConcurrentObservable] struct.  The two mutexes are struct
      values and are copied with it; the [observers] map is a reference and
      is shared with the caller and with every other call.
    - A [go] statement starts a goroutine that runs a closure.  The closure
      of [Notify] captures the loop variable [observer] by reference and
      reads it when the goroutine runs, not when it is started.  Whether the
      loop has one such variable or one per iteration depends on the
      language version the module is built with (one up to Go 1.21, which is
      the language the file was written in); the embedding takes it as the
      parameter [loopvar].
    - Reading a nil map yields the zero value, assigning into a nil map
      panics.

    The file has three layers: the methods as functions on the world they
    share ([Observe], [Notify], [NewConcurrentObservable]), a client that
    calls them one after another ([do_ops]), and a machine that runs calls,
    goroutines and readers statement by statement in any order ([run]). *)

From stdpp Require Import gmap strings list.

Set Default Proof Using "Type".

(** ** Values *)

(** A channel made by [make(chan bool)].  Channels are compared by identity;
    the identity is the rank of the channel among all channels made so far.
    A channel has no buffer: a value sent on it stays with the sending
    goroutine until a receiver takes it. *)
Definition chan := nat.

(** [sync.Mutex], a struct value: copying it copies its state. *)
Inductive Mutex := Unlocked | Locked.

(** [sync.RWMutex]: free, held by [n] readers, or held by a writer. *)
Inductive RWMutex := RWFree | RWReaders (n : nat) | RWWriter.

(** [type observers map[string][]chan bool].  A slice is modelled by the list
    of its elements (the program only ever appends to a slice and stores the
    result back where it read it). *)
Abbreviation observers := (gmap string (list chan)).

(** [type ConcurrentObservable struct].  The embedded field [observers] holds
    a map reference: [None] is the nil map, [Some a] the map object at
    address [a] of the heap. *)
Record ConcurrentObservable := mkConcurrentObservable {
  DataLock : RWMutex;
  ObserverLock : Mutex;
  observers_ref : option nat
}.

(** [fmt.Stringer]: the one-method interface behind [Key]. *)
Class Stringer (A : Type) := String : A → string.

(** [type Key fmt.Stringer].  An interface value packs a value with its
    dynamic type and that type's method.  The rendering is a function: a key
    whose [String] method fails or is nil is outside the contract of the
    registry. *)
Record Key := mkKey {
  key_type : Type;
  key_stringer : Stringer key_type;
  key_value : key_type
}.
Arguments mkKey {key_type key_stringer} key_value.

(** Calling [k.String()] on an interface value dispatches to the method of
    the dynamic type. *)
#[export] Instance Key_String : Stringer Key :=
  λ k, @String (key_type k) (key_stringer k) (key_value k).

(** [type PlainKey struct { Text string }] *)
Record PlainKey := mkPlainKey { Text : string }.

(** [func (pk PlainKey) String() string] *)
#[export] Instance PlainKey_String : Stringer PlainKey := λ pk, Text pk.

(** [func NewPlainKey(s string) PlainKey] *)
Definition NewPlainKey (s : string) : PlainKey := {| Text := s |}.

(** ** The world outside a call *)

(** A goroutine started by [Notify].  It runs [func() { observer <- true }]:
    first it reads the captured variable, then it blocks in the send until a
    receiver takes the value, then it ends. *)
Inductive goroutine :=
| Closure (v : nat)            (* started; [v] is the captured variable *)
| Sending (c : chan) (b : bool) (* blocked in [c <- b] *)
| Exited (c : chan) (b : bool). (* ended: a reader of [c] received [b] *)

(** Everything a call can reach besides its own frame. *)
Record World := mkWorld {
  maps : list observers;  (* the map objects made so far, by address *)
  chans : nat;            (* how many channels were made so far *)
  vars : list chan;       (* the variables captured by closures, by address *)
  gos : list goroutine    (* the goroutines started so far *)
}.

Definition set_maps (f : list observers → list observers) (w : World) : World :=
  {| maps := f (maps w); chans := chans w; vars := vars w; gos := gos w |}.
Definition set_chans (f : nat → nat) (w : World) : World :=
  {| maps := maps w; chans := f (chans w); vars := vars w; gos := gos w |}.
Definition set_vars (f : list chan → list chan) (w : World) : World :=
  {| maps := maps w; chans := chans w; vars := f (vars w); gos := gos w |}.
Definition set_gos (f : list goroutine → list goroutine) (w : World) : World :=
  {| maps := maps w; chans := chans w; vars := vars w; gos := f (gos w) |}.

(** ** Calls: state, panics and blocking *)

(** How a call ends: it returns, it panics, or it blocks forever. *)
Inductive outcome (A : Type) :=
| Returns (a : A) (w : World)
| Panics (msg : string) (w : World)
| Blocks (w : World).
Arguments Returns {A} a w.
Arguments Panics {A} msg w.
Arguments Blocks {A} w.

Definition M (A : Type) : Type := World → outcome A.

Definition ret {A} (a : A) : M A := λ w, Returns a w.

Definition bind {A B} (m : M A) (f : A → M B) : M B :=
  λ w, match m w with
       | Returns a w' => f a w'
       | Panics msg w' => Panics msg w'
       | Blocks w' => Blocks w'
       end.

Notation "'let*' x := m 'in' k" := (bind m (λ x, k))
  (at level 10, x name, m at level 100, k at level 200,
   format "'[v' 'let*'  x  :=  m  'in' '/' k ']'").

Definition panic {A} (msg : string) : M A := λ w, Panics msg w.
Definition block {A} : M A := λ w, Blocks w.

(** [defer d; body]: [d] runs when [body] returns and when it panics. *)
Definition defer {A} (d : M unit) (body : M A) : M A :=
  λ w, match body w with
       | Returns a w' => (let* _ := d in ret a) w'
       | Panics msg w' => (let* _ := d in panic msg) w'
       | Blocks w' => Blocks w'
       end.

(** *** The statements of the program *)

(** [mu.Lock()] on a mutex of the frame.  Nobody else holds a reference to a
    frame's copy, so a copy that is already locked stays locked. *)
Definition Lock (mu : Mutex) : M Mutex :=
  match mu with
  | Unlocked => ret Locked
  | Locked => block
  end.

(** [mu.Unlock()] *)
Definition Unlock (mu : Mutex) : M unit :=
  match mu with
  | Locked => ret tt
  | Unlocked => panic "sync: unlock of unlocked mutex"
  end.

(** [make(chan bool)] *)
Definition make_chan : M chan :=
  λ w, Returns (chans w) (set_chans S w).

(** [make(observers)] *)
Definition make_map : M nat :=
  λ w, Returns (length (maps w)) (set_maps (λ h, h ++ [∅]) w).

(** A reference that points to no map object cannot be built in Go. *)
Definition no_object : string := "invalid map reference".

(** [m[key]] as an expression: the zero value (a nil slice) when the map is
    nil or has no entry for [key]. *)
Definition map_index (m : option nat) (key : string) : M (list chan) :=
  match m with
  | None => ret []
  | Some a => λ w, match maps w !! a with
                   | Some o => Returns (default [] (o !! key)) w
                   | None => Panics no_object w
                   end
  end.

(** [m[key] = s] *)
Definition map_assign (m : option nat) (key : string) (s : list chan) : M unit :=
  match m with
  | None => panic "assignment to entry in nil map"
  | Some a => λ w, match maps w !! a with
                   | Some o => Returns tt (set_maps (λ h, <[a := <[key := s]> o]> h) w)
                   | None => Panics no_object w
                   end
  end.

(** [go f]: the goroutine is started, it has not run yet. *)
Definition go (g : goroutine) : M unit :=
  λ w, Returns tt (set_gos (λ gs, gs ++ [g]) w).

(** The variable of a [for ... range] loop.  Up to Go 1.21 the loop has one
    variable, assigned at each iteration; from Go 1.22 on (for a module whose
    go.mod says so) each iteration has a variable of its own. *)
Inductive loopvar := PerLoop | PerIteration.

(** [observer := ...] at the head of an iteration: [v] is the variable of the
    iteration before, if any.  The result is the address of the variable the
    closures of this iteration capture. *)
Definition bind_var (sem : loopvar) (v : option nat) (c : chan) : M nat :=
  match sem, v with
  | PerLoop, Some a => λ w, Returns a (set_vars (λ h, <[a := c]> h) w)
  | _, _ => λ w, Returns (length (vars w)) (set_vars (λ h, h ++ [c]) w)
  end.

(** ** The registry *)

Section Registry.

Variable sem : loopvar.

(** [func (l ConcurrentObservable) Observe(k Key) chan bool] *)
Definition Observe (l : ConcurrentObservable) (k : Key) : M chan :=
  let* mu := Lock (ObserverLock l) in
  defer (Unlock mu) (
    let* observer := make_chan in
    let key := String k in
    let* s := map_index (observers_ref l) key in
    let* _ := map_assign (observers_ref l) key (s ++ [observer]) in
    ret observer).

(** [for _, observer := range s { go (func() { observer <- true })() }] *)
Fixpoint range_go (s : list chan) (v : option nat) : M unit :=
  match s with
  | [] => ret tt
  | c :: s' =>
      let* a := bind_var sem v c in
      let* _ := go (Closure a) in
      range_go s' (Some a)
  end.

(** [func (l ConcurrentObservable) Notify(k Key)] *)
Definition Notify (l : ConcurrentObservable) (k : Key) : M unit :=
  let* mu := Lock (ObserverLock l) in
  defer (Unlock mu) (
    let* s := map_index (observers_ref l) (String k) in
    range_go s None).

End Registry.

(** [func NewConcurrentObservable() ConcurrentObservable] *)
Definition NewConcurrentObservable : M ConcurrentObservable :=
  let* a := make_map in
  ret {| DataLock := RWFree; ObserverLock := Unlocked; observers_ref := Some a |}.

(** The zero value [ConcurrentObservable{}]. *)
Definition zero_ConcurrentObservable : ConcurrentObservable :=
  {| DataLock := RWFree; ObserverLock := Unlocked; observers_ref := None |}.

(** The world of a program that has not made anything yet. *)
Definition empty_World : World :=
  {| maps := []; chans := 0; vars := []; gos := [] |}.

Definition x_key : Key := mkKey (NewPlainKey "x").
Definition y_key : Key := mkKey (NewPlainKey "y").

(** ** Goroutines and receivers *)

(** The started goroutine [j] runs: it reads the captured variable and blocks
    in [observer <- true]. *)
Definition run_go (j : nat) (w : World) : option World :=
  match gos w !! j with
  | Some (Closure v) =>
      match vars w !! v with
      | Some c => Some (set_gos (λ gs, <[j := Sending c true]> gs) w)
      | None => None
      end
  | _ => None
  end.

(** A reader executes [<-c] and takes the value of the sender [j]. *)
Definition recv (c : chan) (j : nat) (w : World) : option (bool * World) :=
  match gos w !! j with
  | Some (Sending c' b) =>
      if decide (c' = c) then Some (b, set_gos (λ gs, <[j := Exited c b]> gs) w)
      else None
  | _ => None
  end.

(** Every started goroutine runs, in the order of [js]. *)
Fixpoint run_gos (js : list nat) (w : World) : option World :=
  match js with
  | [] => Some w
  | j :: js' =>
      match run_go j w with
      | Some w' => run_gos js' w'
      | None => None
      end
  end.

(** The channel a goroutine is blocked on, if it is. *)
Definition sending_on (g : goroutine) : option chan :=
  match g with
  | Sending c true => Some c
  | _ => None
  end.

(** The sends of [true] that wait for a receiver, in the order in which
    their goroutines were started. *)
Definition pending (w : World) : list chan := omap sending_on (gos w).

(** ** Calls that run at the same time *)

(** A call in progress: the statement it is about to execute, with the
    locals it has so far.  [mu] is the [ObserverLock] of the call's own copy
    of the receiver. *)
Inductive frame :=
| ObserveLock (l : ConcurrentObservable) (k : Key)
| ObserveMake (l : ConcurrentObservable) (k : Key) (mu : Mutex)
| ObserveIndex (l : ConcurrentObservable) (k : Key) (mu : Mutex) (observer : chan)
| ObserveAssign (l : ConcurrentObservable) (mu : Mutex) (observer : chan)
    (key : string) (s : list chan)
| ObserveReturn (mu : Mutex) (observer : chan)
| NotifyLock (l : ConcurrentObservable) (k : Key)
| NotifyIndex (l : ConcurrentObservable) (k : Key) (mu : Mutex)
| NotifyRange (mu : Mutex) (s : list chan) (v : option nat)
| Unwinding (mu : Mutex) (msg : string)
| Returned (r : option chan)
| Panicked (msg : string).

(** One statement of a call: [m] is the statement, [k] the rest of the call
    after it, [h] what a panic of the statement leads to. *)
Definition next {A} (m : M A) (k : A → frame) (h : string → frame) (w : World)
  : option (frame * World) :=
  match m w with
  | Returns a w' => Some (k a, w')
  | Panics msg w' => Some (h msg, w')
  | Blocks _ => None
  end.

Section Machine.

Variable sem : loopvar.

(** The next statement of a call.  [None]: the call is blocked, or over.
    [key := k.String()] has no effect outside the frame and is taken together
    with the statement after it, and so is the assignment of the loop
    variable with the [go] statement of its iteration. *)
Definition step_frame (f : frame) : World → option (frame * World) :=
  match f with
  | ObserveLock l k =>
      next (Lock (ObserverLock l)) (ObserveMake l k) Panicked
  | ObserveMake l k mu =>
      next make_chan (ObserveIndex l k mu) (Unwinding mu)
  | ObserveIndex l k mu observer =>
      let key := String k in
      next (map_index (observers_ref l) key)
           (λ s, ObserveAssign l mu observer key (s ++ [observer])) (Unwinding mu)
  | ObserveAssign l mu observer key s =>
      next (map_assign (observers_ref l) key s)
           (λ _, ObserveReturn mu observer) (Unwinding mu)
  | ObserveReturn mu observer =>
      next (Unlock mu) (λ _, Returned (Some observer)) Panicked
  | NotifyLock l k =>
      next (Lock (ObserverLock l)) (NotifyIndex l k) Panicked
  | NotifyIndex l k mu =>
      next (map_index (observers_ref l) (String k))
           (λ s, NotifyRange mu s None) (Unwinding mu)
  | NotifyRange mu [] v =>
      next (Unlock mu) (λ _, Returned None) Panicked
  | NotifyRange mu (c :: s) v =>
      next (let* a := bind_var sem v c in let* _ := go (Closure a) in ret a)
           (λ a, NotifyRange mu s (Some a)) (Unwinding mu)
  | Unwinding mu msg =>
      next (Unlock mu) (λ _, Panicked msg) Panicked
  | Returned _ | Panicked _ => λ _, None
  end.

(** The calls in progress and the world they share. *)
Record Machine := mkMachine {
  world : World;
  frames : list frame
}.

(** What the scheduler can do next: let call [i] execute a statement, let
    goroutine [j] run, or let a reader of channel [c] meet the sender [j]. *)
Inductive action :=
| Call (i : nat)
| Go (j : nat)
| Recv (c : chan) (j : nat).

Definition step (a : action) (m : Machine) : option Machine :=
  match a with
  | Call i =>
      match frames m !! i with
      | Some f =>
          match step_frame f (world m) with
          | Some (f', w') => Some {| world := w'; frames := <[i := f']> (frames m) |}
          | None => None
          end
      | None => None
      end
  | Go j =>
      match run_go j (world m) with
      | Some w' => Some {| world := w'; frames := frames m |}
      | None => None
      end
  | Recv c j =>
      match recv c j (world m) with
      | Some (_, w') => Some {| world := w'; frames := frames m |}
      | None => None
      end
  end.

(** A schedule, action by action. *)
Fixpoint run (sched : list action) (m : Machine) : option Machine :=
  match sched with
  | [] => Some m
  | a :: sched' =>
      match step a m with
      | Some m' => run sched' m'
      | None => None
      end
  end.

(** A call that runs with nothing else in between, for at most [fuel]
    statements. *)
Fixpoint alone (fuel : nat) (f : frame) (w : World) : option (outcome (option chan)) :=
  match f with
  | Returned r => Some (Returns r w)
  | Panicked msg => Some (Panics msg w)
  | _ =>
      match fuel with
      | 0 => None
      | S n =>
          match step_frame f w with
          | Some (f', w') => alone n f' w'
          | None => Some (Blocks w)
          end
      end
  end.

End Machine.

(** The calls hold their lock: past [Lock], before the deferred [Unlock]. *)
Definition holds_lock (f : frame) : bool :=
  match f with
  | ObserveMake _ _ Locked | ObserveIndex _ _ Locked _
  | ObserveAssign _ Locked _ _ _ | ObserveReturn Locked _
  | NotifyIndex _ _ Locked | NotifyRange Locked _ _ | Unwinding Locked _ => true
  | _ => false
  end.

(** ** A program that calls the registry *)

(** What a sequential client does with one registry value [l]: a call of
    [Observe] or [Notify], or nothing for a moment, in which goroutine [j]
    runs or a reader of [c] meets the sender [j] if they can. *)
Inductive op :=
| DoObserve (k : Key)
| DoNotify (k : Key)
| DoGo (j : nat)
| DoRecv (c : chan) (j : nat).

(** What the client saw. *)
Inductive event :=
| Observed (key : string) (c : chan)
| Notified (key : string)
| Ran (j : nat)
| Received (c : chan) (b : bool)
| Idle.

(** The channel an event handed to the client. *)
Definition observed (e : event) : option chan :=
  match e with
  | Observed _ c => Some c
  | _ => None
  end.

Definition map_outcome {A B} (f : A → B) (o : outcome A) : outcome B :=
  match o with
  | Returns a w => Returns (f a) w
  | Panics msg w => Panics msg w
  | Blocks w => Blocks w
  end.

Section Client.

Variable sem : loopvar.
Variable l : ConcurrentObservable.

Definition do_op (o : op) : M event :=
  match o with
  | DoObserve k => let* c := Observe l k in ret (Observed (String k) c)
  | DoNotify k => let* _ := Notify sem l k in ret (Notified (String k))
  | DoGo j => λ w, match run_go j w with
                   | Some w' => Returns (Ran j) w'
                   | None => Returns Idle w
                   end
  | DoRecv c j => λ w, match recv c j w with
                       | Some (b, w') => Returns (Received c b) w'
                       | None => Returns Idle w
                       end
  end.

(** The operations in order, up to the first that does not return; with the
    events of those that did. *)
Fixpoint do_ops (os : list op) (w : World) : list event * outcome unit :=
  match os with
  | [] => ([], Returns tt w)
  | o :: os' =>
      match do_op o w with
      | Returns e w' => let '(es, r) := do_ops os' w' in (e :: es, r)
      | Panics msg w' => ([], Panics msg w')
      | Blocks w' => ([], Blocks w')
      end
  end.

End Client.

(** The world a call leaves behind, however it ends. *)
Definition final {A} (r : outcome A) : World :=
  match r with
  | Returns _ w | Panics _ w | Blocks w => w
  end.

(** The map object behind a registry value. *)
Definition registry_map (l : ConcurrentObservable) (w : World) : option observers :=
  match observers_ref l with
  | Some a => maps w !! a
  | None => None
  end.

(** The channels registered under a key text. *)
Definition registered (l : ConcurrentObservable) (key : string) (w : World) : list chan :=
  match registry_map l w with
  | Some o => default [] (o !! key)
  | None => []
  end.

(** A registry value as the constructor and the methods leave it: its own
    [ObserverLock] is free and its map exists. *)
Definition usable (l : ConcurrentObservable) (w : World) : Prop :=
  ObserverLock l = Unlocked ∧ is_Some (registry_map l w).

(** The channels the client was handed under a key text, in order. *)
Definition observed_under (key : string) (es : list event) : list chan :=
  omap (λ e, match e with
             | Observed t c => if decide (t = key) then Some c else None
             | _ => None
             end) es.

(** The channel a goroutine sends on: the one it is blocked on, or the one
    its captured variable holds now if it has not run yet. *)
Definition target (w : World) (g : goroutine) : option chan :=
  match g with
  | Closure v => vars w !! v
  | Sending c true => Some c
  | _ => None
  end.

(** The sends of [true] that are on their way, in the order in which their
    goroutines were started. *)
Definition targets (w : World) : list chan := omap (target w) (gos w).

(** The channel a goroutine sends [true] on, sent [true] on, or will send
    [true] on as its captured variable stands. *)
Definition sent_to (w : World) (g : goroutine) : option chan :=
  match g with
  | Closure v => vars w !! v
  | Sending c true | Exited c true => Some c
  | _ => None
  end.

(** All the sends of [true] started so far, received or not, in the order in
    which their goroutines were started. *)
Definition all_sends (w : World) : list chan := omap (sent_to w) (gos w).

(** The channels from which a reader has received [true], one entry for each
    value received. *)
Definition delivered (w : World) : list chan :=
  omap (λ g, match g with Exited c true => Some c | _ => None end) (gos w).

(** Every goroutine has ended. *)
Definition all_exited (w : World) : bool :=
  forallb (λ g, match g with Exited _ _ => true | _ => false end) (gos w).

(** No goroutine is left that has not run. *)
Definition settled (w : World) : Prop :=
  ∀ j v, gos w !! j ≠ Some (Closure v).

(** Go is memory safe: every channel in the world was made, and every
    captured variable exists. *)
Definition goroutine_ok (w : World) (g : goroutine) : Prop :=
  match g with
  | Closure v => v < length (vars w)
  | Sending c _ | Exited c _ => c < chans w
  end.

Definition world_ok (w : World) : Prop :=
  (∀ a (o : observers) t s c,
     maps w !! a = Some o → o !! t = Some s → c ∈ s → c < chans w) ∧
  (∀ c, c ∈ vars w → c < chans w) ∧
  (∀ g, g ∈ gos w → goroutine_ok w g).

(** ** Sample programs *)

(** A key of a client's own type that renders as [PlainKey "x"] does. *)
Inductive Topic := TopicX.
#[export] Instance Topic_String : Stringer Topic := λ _, "x".
Definition topic_key : Key := mkKey TopicX.

(** The registry value the constructor returns in an empty world, and that
    world. *)
Definition first_registry : ConcurrentObservable :=
  {| DataLock := RWFree; ObserverLock := Unlocked; observers_ref := Some 0 |}.
Definition first_world : World :=
  {| maps := [∅]; chans := 0; vars := []; gos := [] |}.

(** [l := NewConcurrentObservable(); c1 := l.Observe(k1); c2 := l.Observe(k2);
    l.Notify(k)] *)
Definition two_observers (sem : loopvar) (k1 k2 k : Key)
  : M (ConcurrentObservable * chan * chan) :=
  let* l := NewConcurrentObservable in
  let* c1 := Observe l k1 in
  let* c2 := Observe l k2 in
  let* _ := Notify sem l k in
  ret (l, c1, c2).

(** Every goroutine has run. *)
Definition all_ran (w : World) : bool :=
  forallb (λ g, match g with Closure _ => false | _ => true end) (gos w).

(** What holds at every moment of a call of [Notify] on [l] and [k] that
    started in the world [w] with the channels [s] registered, while
    goroutines run and readers receive as they like, with a variable per
    iteration: the sends started are those of [w] and one for each channel
    the loop has passed. *)
Definition notify_inv (l : ConcurrentObservable) (k : Key) (w : World)
    (s : list chan) (m : Machine) : Prop :=
  world_ok (world m) ∧ maps (world m) = maps w ∧
  match frames m with
  | [NotifyLock l' k'] =>
      l' = l ∧ k' = k ∧ all_sends (world m) = all_sends w
  | [NotifyIndex l' k' mu] =>
      l' = l ∧ k' = k ∧ mu = Locked ∧ all_sends (world m) = all_sends w
  | [NotifyRange mu rest v] =>
      mu = Locked ∧ (∀ a, v = Some a → a < length (vars (world m))) ∧
      ∃ passed, s = passed ++ rest ∧
        all_sends (world m) = all_sends w ++ passed
  | [Returned r] => r = None ∧ all_sends (world m) = all_sends w ++ s
  | _ => False
  end.

(** ** Further notions *)

(** The channel a call of [Observe] has made, whether it has returned it
    yet or not. *)
Definition held (f : frame) : option chan :=
  match f with
  | ObserveIndex _ _ _ c | ObserveAssign _ _ c _ _ | ObserveReturn _ c
  | Returned (Some c) => Some c
  | _ => None
  end.

(** A call that has not executed a statement yet. *)
Definition starting (f : frame) : bool :=
  match f with
  | ObserveLock _ _ | NotifyLock _ _ => true
  | _ => false
  end.

(** A schedule in which no reader receives. *)
Definition no_reader (sched : list action) : bool :=
  forallb (λ a, match a with Recv _ _ => false | _ => true end) sched.

(** A goroutine that was started and has not run. *)
Definition is_closure (g : goroutine) : bool :=
  match g with
  | Closure _ => true
  | _ => false
  end.

(** The world after [r := NewConcurrentObservable(); r.Observe(x); r.Observe(x)]
    in an empty world. *)
Definition observed_twice : World :=
  final (do_ops PerLoop first_registry [DoObserve x_key; DoObserve x_key] first_world).2.

(** The channels the calls of [Observe] in progress have made were made,
    and no two calls have the same. *)
Definition distinct_held (m : Machine) : Prop :=
  ∀ i f c, frames m !! i = Some f → held f = Some c →
    c < chans (world m) ∧
    ∀ j f', j ≠ i → frames m !! j = Some f' → held f' ≠ Some c.

(** * Properties *)

(** ** The calls, case by case *)

Lemma Observe_cases l k w :
  Observe l k w =
  match ObserverLock l with
  | Locked => Blocks w
  | Unlocked =>
      match observers_ref l with
      | None => Panics "assignment to entry in nil map" (set_chans S w)
      | Some a =>
          match maps w !! a with
          | None => Panics no_object (set_chans S w)
          | Some o =>
              Returns (chans w)
                (set_maps (λ h, <[a := <[String k := default [] (o !! String k) ++ [chans w]]> o]> h)
                   (set_chans S w))
          end
      end
  end.
Proof.
  unfold Observe, bind, defer. destruct (ObserverLock l); simpl; [|done].
  destruct (observers_ref l) as [a|]; simpl; [|done].
  unfold bind, make_chan, map_index, map_assign; simpl.
  destruct (maps w !! a) as [o|] eqn:Ho; simpl; [|done].
  by rewrite Ho.
Qed.

Lemma range_go_returns sem s v w :
  ∃ w', range_go sem s v w = Returns tt w' ∧
        maps w' = maps w ∧ chans w' = chans w.
Proof.
  revert v w. induction s as [|c s IH]; intros v w; simpl.
  - by exists w.
  - unfold bind.
    destruct (bind_var sem v c w) as [a w1| |] eqn:Hb;
      [|destruct sem, v; done..].
    simpl. destruct (IH (Some a) (set_gos (λ gs, gs ++ [Closure a]) w1))
      as (w' & -> & Hm & Hc).
    exists w'. split; [done|]. rewrite Hm, Hc.
    destruct sem, v; simpl in Hb; by simplify_eq.
Qed.

Lemma Notify_cases sem l k w :
  Notify sem l k w =
  match ObserverLock l with
  | Locked => Blocks w
  | Unlocked =>
      match observers_ref l with
      | None => Returns tt w
      | Some a =>
          match maps w !! a with
          | None => Panics no_object w
          | Some o => range_go sem (default [] (o !! String k)) None w
          end
      end
  end.
Proof.
  unfold Notify, bind, defer. destruct (ObserverLock l); simpl; [|done].
  destruct (observers_ref l) as [a|]; simpl; [|done].
  destruct (maps w !! a) as [o|] eqn:Ho; simpl; [|done].
  destruct (range_go_returns sem (default [] (o !! String k)) None w)
    as (w' & -> & _).
  done.
Qed.

(** ** The loop of [Notify], in closed form *)

Lemma range_go_PerIteration s v w :
  range_go PerIteration s v w =
  Returns tt {| maps := maps w; chans := chans w;
                vars := vars w ++ s;
                gos := gos w ++ (Closure <$> seq (length (vars w)) (length s)) |}.
Proof.
  revert v w. induction s as [|c s IH]; intros v w; simpl.
  - unfold ret. rewrite !app_nil_r. by destruct w.
  - unfold bind. replace (bind_var PerIteration v c w)
      with (Returns (length (vars w)) (set_vars (λ h, h ++ [c]) w))
      by (by destruct v).
    simpl. rewrite IH. simpl. rewrite length_app. simpl.
    rewrite Nat.add_1_r, <- !app_assoc. done.
Qed.

Lemma range_go_PerLoop_Some s a w :
  range_go PerLoop s (Some a) w =
  Returns tt {| maps := maps w; chans := chans w;
                vars := foldl (λ h c, <[a := c]> h) (vars w) s;
                gos := gos w ++ replicate (length s) (Closure a) |}.
Proof.
  revert w. induction s as [|c s IH]; intros w; simpl.
  - unfold ret. rewrite app_nil_r. by destruct w.
  - unfold bind. simpl. rewrite IH. simpl.
    rewrite <- app_assoc. done.
Qed.

Lemma foldl_store_last (h : list chan) c s :
  foldl (λ h' c', <[length h := c']> h') (h ++ [c]) s = h ++ [default c (last s)].
Proof.
  revert c. induction s as [|c' s IH]; intros c; simpl; [done|].
  rewrite insert_app_r_alt, Nat.sub_diag by lia. simpl.
  rewrite IH, last_cons. by destruct (last s).
Qed.

Lemma range_go_PerLoop_None c s w :
  range_go PerLoop (c :: s) None w =
  Returns tt {| maps := maps w; chans := chans w;
                vars := vars w ++ [default c (last s)];
                gos := gos w ++ replicate (S (length s)) (Closure (length (vars w))) |}.
Proof.
  simpl. unfold bind. simpl. rewrite range_go_PerLoop_Some. simpl.
  rewrite foldl_store_last, <- app_assoc. done.
Qed.

(** ** Where the goroutines send *)

Lemma target_vars_app w w' g :
  goroutine_ok w g → (∃ h, vars w' = vars w ++ h) → target w' g = target w g.
Proof.
  intros Hg [h Hh]. destruct g as [v|c b|]; simpl in *; [|done..].
  rewrite Hh. by apply lookup_app_l.
Qed.

Lemma targets_old w w' :
  (∀ g, g ∈ gos w → goroutine_ok w g) → (∃ h, vars w' = vars w ++ h) →
  omap (target w') (gos w) = targets w.
Proof.
  intros Hok Hh. unfold targets. revert Hok.
  generalize (gos w). intros gs. induction gs as [|g gs IH]; intros Hok; simpl; [done|].
  rewrite (target_vars_app w w' g) by (auto using list_elem_of_here).
  destruct (target w g); [f_equal|]; apply IH; auto using list_elem_of_further.
Qed.

Lemma targets_fresh_closures w h s :
  vars w = h ++ s →
  omap (target w) (Closure <$> seq (length h) (length s)) = s.
Proof.
  revert h. induction s as [|c s IH]; intros h Hv; [done|].
  cbn [length seq fmap list_fmap omap list_omap target].
  rewrite Hv, lookup_app_r, Nat.sub_diag by lia. cbn [lookup list_lookup].
  f_equal. specialize (IH (h ++ [c])).
  rewrite length_app, Nat.add_1_r in IH. apply IH.
  by rewrite Hv, <- app_assoc.
Qed.

(** With a variable per iteration every registered channel gets its own
    send. *)
Lemma targets_range_go_PerIteration s v w w' :
  world_ok w → range_go PerIteration s v w = Returns tt w' →
  targets w' = targets w ++ s.
Proof.
  intros (_ & _ & Hok). rewrite range_go_PerIteration. intros [= <-].
  unfold targets at 1. cbn [gos]. rewrite omap_app.
  rewrite targets_old by (simpl; eauto). f_equal.
  by apply targets_fresh_closures.
Qed.

Lemma targets_shared_closures w a c n :
  vars w !! a = Some c →
  omap (target w) (replicate n (Closure a)) = replicate n c.
Proof.
  intros Ha. induction n as [|n IH]; [done|].
  cbn [replicate omap list_omap target]. rewrite Ha. by f_equal.
Qed.

(** With one variable for the loop every goroutine that runs after the loop
    sends on the channel registered last. *)
Lemma targets_range_go_PerLoop c s w w' :
  world_ok w → range_go PerLoop (c :: s) None w = Returns tt w' →
  targets w' = targets w ++ replicate (S (length s)) (default c (last s)).
Proof.
  intros (_ & _ & Hok). rewrite range_go_PerLoop_None. intros [= <-].
  unfold targets at 1. cbn [gos]. rewrite omap_app.
  rewrite targets_old by (simpl; eauto). f_equal.
  apply (targets_shared_closures _ _ _ (S (length s))). cbn [vars].
  by rewrite lookup_app_r, Nat.sub_diag by lia.
Qed.

Lemma omap_insert_same {A B} (f : A → option B) (l : list A) j x y :
  l !! j = Some x → f y = f x → omap f (<[j := y]> l) = omap f l.
Proof.
  revert j. induction l as [|z l IH]; intros [|j] Hj Hf; simplify_eq/=; [by rewrite Hf|].
  by rewrite (IH j).
Qed.

Lemma run_go_Some j w w' :
  run_go j w = Some w' →
  ∃ v c, gos w !! j = Some (Closure v) ∧ vars w !! v = Some c ∧
         w' = set_gos (λ gs, <[j := Sending c true]> gs) w.
Proof.
  unfold run_go. destruct (gos w !! j) as [[v| |]|]; try done.
  destruct (vars w !! v) as [c|] eqn:Hv; [|done]. intros [= <-]. eauto.
Qed.

Lemma recv_Some c j w b w' :
  recv c j w = Some (b, w') →
  gos w !! j = Some (Sending c b) ∧ w' = set_gos (λ gs, <[j := Exited c b]> gs) w.
Proof.
  unfold recv. destruct (gos w !! j) as [[|c' b'|]|]; try done.
  case_decide; [|done]. intros [= <- <-]. by subst.
Qed.

(** A goroutine that runs sends where it was going to send. *)
Lemma run_go_targets j w w' : run_go j w = Some w' → targets w' = targets w.
Proof.
  intros (v & c & Hj & Hv & ->)%run_go_Some. unfold targets. simpl.
  erewrite omap_insert_same; [|done|by simpl].
  done.
Qed.

Lemma run_gos_targets js w w' : run_gos js w = Some w' → targets w' = targets w.
Proof.
  revert w. induction js as [|j js IH]; intros w; simpl; [by intros [= ->]|].
  destruct (run_go j w) as [w1|] eqn:Hj; [|done].
  intros Hjs. rewrite (IH _ Hjs). by eapply run_go_targets.
Qed.

(** Once every goroutine has run, the sends that wait for a receiver are
    the sends that were on their way. *)
Lemma pending_settled w : settled w → pending w = targets w.
Proof.
  unfold settled, pending, targets. generalize (gos w). intros gs Hs.
  induction gs as [|g gs IH]; [done|].
  cbn [omap list_omap].
  rewrite IH by (intros j v; apply (Hs (S j) v)).
  destruct g as [v|c [|]|]; [|done..]. by destruct (Hs 0 v).
Qed.

(** ** Memory safety is kept *)

Lemma world_ok_empty : world_ok empty_World.
Proof.
  split_and!; simpl.
  - intros a o t s c Ha. by rewrite lookup_nil in Ha.
  - intros c Hc. by apply not_elem_of_nil in Hc.
  - intros g Hg. by apply not_elem_of_nil in Hg.
Qed.

Lemma goroutine_ok_mono w w' g :
  chans w ≤ chans w' → length (vars w) ≤ length (vars w') →
  goroutine_ok w g → goroutine_ok w' g.
Proof. destruct g; simpl; lia. Qed.

Lemma world_ok_make_map w :
  world_ok w → world_ok (set_maps (λ h, h ++ [∅]) w).
Proof.
  intros (Hm & Hv & Hg). split_and!; simpl; [|done..].
  intros a o t s c Ha Ht Hc.
  apply lookup_app_Some in Ha as [Ha|[_ Ha]]; [by eapply Hm|].
  destruct (a - length (maps w)); simplify_eq/=.
Qed.

Lemma world_ok_assign a o key s w :
  world_ok w → maps w !! a = Some o →
  (∀ c, c ∈ s → c < S (chans w)) →
  world_ok (set_maps (λ h, <[a := <[key := s]> o]> h) (set_chans S w)).
Proof.
  intros (Hm & Hv & Hg) Ha Hs. split_and!; simpl.
  - intros a' o' t s' c [(-> & <- & _)|[_ Ha']]%list_lookup_insert_Some Ht Hc.
    + apply lookup_insert_Some in Ht as [[-> ->]|[_ Ht]]; [by apply Hs|].
      specialize (Hm _ _ _ _ _ Ha Ht Hc). lia.
    + specialize (Hm _ _ _ _ _ Ha' Ht Hc). lia.
  - intros c Hc. specialize (Hv c Hc). lia.
  - intros g Hg'. eapply goroutine_ok_mono; [| |by apply Hg]; simpl; lia.
Qed.

Lemma world_ok_Observe l k w : world_ok w → world_ok (final (Observe l k w)).
Proof.
  intros Hw. rewrite Observe_cases.
  assert (world_ok (set_chans S w)) as Hw'.
  { destruct Hw as (Hm & Hv & Hg). split_and!; simpl.
    - intros a o t s c Ha Ht Hc. specialize (Hm _ _ _ _ _ Ha Ht Hc). lia.
    - intros c Hc. specialize (Hv c Hc). lia.
    - intros g Hg'. eapply goroutine_ok_mono; [| |by apply Hg]; simpl; lia. }
  destruct (ObserverLock l); [|done].
  destruct (observers_ref l) as [a|]; [|done].
  destruct (maps w !! a) as [o|] eqn:Ha; [|done].
  simpl. apply world_ok_assign; [done..|].
  intros c [Hc| ->%list_elem_of_singleton]%elem_of_app; [|lia].
  destruct (o !! String k) as [s|] eqn:Hs; simpl in Hc.
  - destruct Hw as (Hm & _). specialize (Hm _ _ _ _ _ Ha Hs Hc). lia.
  - by apply not_elem_of_nil in Hc.
Qed.

Lemma world_ok_bind_var sem v c w a w1 :
  world_ok w → c < chans w → (∀ a', v = Some a' → a' < length (vars w)) →
  bind_var sem v c w = Returns a w1 →
  world_ok (set_gos (λ gs, gs ++ [Closure a]) w1) ∧
  a < length (vars w1) ∧ maps w1 = maps w ∧ chans w1 = chans w.
Proof.
  intros (Hm & Hv & Hg) Hc Ha Hb.
  assert ((sem = PerLoop ∧ v = Some a ∧ w1 = set_vars (λ h, <[a := c]> h) w) ∨
          (a = length (vars w) ∧ w1 = set_vars (λ h, h ++ [c]) w)) as [(_ & -> & ->)|[-> ->]].
  { destruct sem, v; simpl in Hb; simplify_eq; auto. }
  - specialize (Ha a eq_refl).
    split; [split; [|split]|]; simpl.
    + done.
    + intros c' (i & [(_ & <- & _)|[_ Hi]]%list_lookup_insert_Some)%list_elem_of_lookup;
        [done|]. apply Hv. by eapply list_elem_of_lookup_2.
    + intros g [Hg'| ->%list_elem_of_singleton]%elem_of_app; simpl;
        [|by rewrite length_insert].
      eapply goroutine_ok_mono; [| |by apply Hg]; simpl; [lia|].
      by rewrite length_insert.
    + by rewrite length_insert.
  - split; [split; [|split]|]; simpl.
    + done.
    + intros c' [Hc'| ->%list_elem_of_singleton]%elem_of_app; auto.
    + intros g [Hg'| ->%list_elem_of_singleton]%elem_of_app; simpl;
        [|rewrite length_app; simpl; lia].
      eapply goroutine_ok_mono; [| |by apply Hg]; simpl; [lia|].
      rewrite length_app; lia.
    + rewrite length_app; simpl. split; [lia|done].
Qed.

Lemma world_ok_range_go sem s v w :
  world_ok w → (∀ c, c ∈ s → c < chans w) →
  (∀ a, v = Some a → a < length (vars w)) →
  world_ok (final (range_go sem s v w)).
Proof.
  revert v w. induction s as [|c s IH]; intros v w Hw Hs Hv; simpl; [done|].
  unfold bind.
  destruct (bind_var sem v c w) as [a w1| |] eqn:Hb; [|destruct sem, v; done..].
  simpl.
  destruct (world_ok_bind_var sem v c w a w1) as (Hw1 & Ha & Hm1 & Hc1);
    [done|apply Hs; left|done..|].
  apply IH; [done| |].
  - intros c' Hc'. simpl. rewrite Hc1. apply Hs. by right.
  - intros a' [= <-]. done.
Qed.

Lemma world_ok_Notify sem l k w : world_ok w → world_ok (final (Notify sem l k w)).
Proof.
  intros Hw. rewrite Notify_cases.
  destruct (ObserverLock l); [|done].
  destruct (observers_ref l) as [a|]; [|done].
  destruct (maps w !! a) as [o|] eqn:Ha; [|done].
  apply world_ok_range_go; [done| |done].
  intros c Hc. destruct (o !! String k) as [s|] eqn:Hs; simpl in Hc.
  - destruct Hw as (Hm & _). by eapply Hm.
  - by apply not_elem_of_nil in Hc.
Qed.

Lemma world_ok_run_go j w w' : world_ok w → run_go j w = Some w' → world_ok w'.
Proof.
  intros (Hm & Hv & Hg) (v & c & Hj & Hc & ->)%run_go_Some.
  split_and!; simpl; [done..|].
  intros g (i & [(_ & <- & _)|[_ Hi]]%list_lookup_insert_Some)%list_elem_of_lookup.
  - simpl. apply Hv. by eapply list_elem_of_lookup_2.
  - apply (Hg g). by eapply list_elem_of_lookup_2.
Qed.

Lemma world_ok_recv c j w b w' : world_ok w → recv c j w = Some (b, w') → world_ok w'.
Proof.
  intros (Hm & Hv & Hg) [Hj ->]%recv_Some.
  split_and!; simpl; [done..|].
  intros g (i & [(_ & <- & _)|[_ Hi]]%list_lookup_insert_Some)%list_elem_of_lookup.
  - apply (Hg (Sending c b)). by eapply list_elem_of_lookup_2.
  - apply (Hg g). by eapply list_elem_of_lookup_2.
Qed.

(** ** What a usable registry does *)

Lemma registry_map_Some l w o :
  registry_map l w = Some o ↔ ∃ a, observers_ref l = Some a ∧ maps w !! a = Some o.
Proof.
  unfold registry_map. destruct (observers_ref l) as [a|]; split.
  - eauto.
  - by intros (a' & [= <-] & ?).
  - done.
  - by intros (a' & ? & ?).
Qed.

Lemma Observe_usable l k w o :
  ObserverLock l = Unlocked → registry_map l w = Some o →
  ∃ w', Observe l k w = Returns (chans w) w' ∧
        registry_map l w' = Some (<[String k := default [] (o !! String k) ++ [chans w]]> o) ∧
        chans w' = S (chans w) ∧ vars w' = vars w ∧ gos w' = gos w ∧
        length (maps w') = length (maps w) ∧
        (∀ b, observers_ref l ≠ Some b → maps w' !! b = maps w !! b).
Proof.
  intros Hl (a & Ha & Ho)%registry_map_Some.
  rewrite Observe_cases, Hl, Ha, Ho. eexists. split; [done|].
  unfold registry_map. rewrite Ha. simpl.
  split_and!; try done.
  - apply list_lookup_insert_eq. by eapply lookup_lt_Some.
  - by rewrite length_insert.
  - intros b Hb. apply list_lookup_insert_ne. congruence.
Qed.

Lemma Notify_usable sem l k w o :
  ObserverLock l = Unlocked → registry_map l w = Some o →
  ∃ w', Notify sem l k w = Returns tt w' ∧
        range_go sem (default [] (o !! String k)) None w = Returns tt w' ∧
        maps w' = maps w ∧ chans w' = chans w.
Proof.
  intros Hl (a & Ha & Ho)%registry_map_Some.
  rewrite Notify_cases, Hl, Ha, Ho.
  destruct (range_go_returns sem (default [] (o !! String k)) None w)
    as (w' & Hr & Hm & Hc).
  by exists w'.
Qed.

Lemma NewConcurrentObservable_usable w :
  ∃ l w', NewConcurrentObservable w = Returns l w' ∧
          ObserverLock l = Unlocked ∧ registry_map l w' = Some ∅ ∧
          observers_ref l = Some (length (maps w)) ∧
          chans w' = chans w ∧ vars w' = vars w ∧ gos w' = gos w ∧
          maps w' = maps w ++ [∅].
Proof.
  eexists _, _. split; [done|]. simpl. split_and!; try done.
  unfold registry_map. simpl.
  by rewrite lookup_app_r, Nat.sub_diag by lia.
Qed.

(** ** A client's calls, one after another *)

Lemma do_op_chans sem l o w :
  chans w ≤ chans (final (do_op sem l o w)) ∧
  ∀ e w', do_op sem l o w = Returns e w' →
    ∀ c, observed e = Some c → c = chans w ∧ chans w' = S (chans w).
Proof.
  assert (∀ e w1, chans w ≤ chans w1 → observed e = None →
    chans w ≤ chans (final (Returns e w1)) ∧
    ∀ e' w', Returns e w1 = Returns e' w' →
      ∀ c, observed e' = Some c → c = chans w ∧ chans w' = S (chans w)) as Hnone.
  { intros e w1 Hle He. split; [done|]. intros e' w' [= <- <-] c. by rewrite He. }
  destruct o as [k|k|j|c j]; simpl.
  - unfold bind. rewrite Observe_cases.
    destruct (ObserverLock l); [|by split; [simpl; lia|]].
    destruct (observers_ref l) as [a|]; [|by split; [simpl; lia|]].
    destruct (maps w !! a) as [o|]; [|by split; [simpl; lia|]].
    split; [simpl; lia|]. intros e w' [= <- <-] c [= <-]. done.
  - unfold bind.
    pose proof (Notify_cases sem l k w) as HN.
    destruct (ObserverLock l); [|rewrite HN; by split].
    destruct (observers_ref l) as [a|]; [|rewrite HN; by apply Hnone].
    destruct (maps w !! a) as [o|]; [|rewrite HN; by split].
    destruct (range_go_returns sem (default [] (o !! String k)) None w)
      as (w' & Hr & _ & Hc).
    rewrite HN, Hr. apply Hnone; [lia|done].
  - destruct (run_go j w) as [w'|] eqn:Hj; [|by apply Hnone].
    apply run_go_Some in Hj as (v & c & _ & _ & ->). by apply Hnone.
  - destruct (recv c j w) as [[b w']|] eqn:Hj; [|by apply Hnone].
    apply recv_Some in Hj as [_ ->]. by apply Hnone.
Qed.

(** The channels handed out by a run were all made during the run, each by
    its own call. *)
Lemma do_ops_fresh sem l os w :
  chans w ≤ chans (final (do_ops sem l os w).2) ∧
  (∀ c, c ∈ omap observed (do_ops sem l os w).1 →
        chans w ≤ c < chans (final (do_ops sem l os w).2)) ∧
  NoDup (omap observed (do_ops sem l os w).1).
Proof.
  revert w. induction os as [|o os IH]; intros w; simpl.
  - split_and!; [lia| |constructor]. intros c Hc. by apply not_elem_of_nil in Hc.
  - destruct (do_op_chans sem l o w) as [Hle Hobs].
    destruct (do_op sem l o w) as [e w'|msg w'|w'] eqn:Ho; simpl in *.
    + destruct (IH w') as (IH1 & IH2 & IH3).
      destruct (do_ops sem l os w') as [es r]. simpl in *.
      split; [lia|].
      destruct (observed e) as [c|] eqn:He.
      * destruct (Hobs e w' eq_refl c He) as [-> Hc].
        split.
        -- intros c' [->|Hc']%elem_of_cons; [lia|].
           specialize (IH2 c' Hc'). lia.
        -- constructor; [|done]. intros Hin. specialize (IH2 _ Hin). lia.
      * split; [|done]. intros c' Hc'. specialize (IH2 c' Hc'). lia.
    + split_and!; [lia| |constructor]. intros c Hc. by apply not_elem_of_nil in Hc.
    + split_and!; [lia| |constructor]. intros c Hc. by apply not_elem_of_nil in Hc.
Qed.

Lemma observed_under_cons key e es :
  observed_under key (e :: es) = observed_under key [e] ++ observed_under key es.
Proof.
  unfold observed_under. simpl.
  destruct e as [t c| | | |]; try done. by case_decide.
Qed.

Lemma elem_of_observed_under key c es :
  c ∈ observed_under key es ↔ Observed key c ∈ es.
Proof.
  unfold observed_under. rewrite list_elem_of_omap. split.
  - intros ([t c'| | | |] & He & Hc); try done.
    case_decide; simplify_eq. done.
  - intros He. exists (Observed key c). split; [done|]. by rewrite decide_True.
Qed.

(** On a usable registry every operation returns, the registry stays
    usable, and its map grows by what the operation handed out. *)
Lemma do_op_usable sem l op w o :
  ObserverLock l = Unlocked → registry_map l w = Some o →
  ∃ e w' o', do_op sem l op w = Returns e w' ∧ registry_map l w' = Some o' ∧
    ∀ key, default [] (o' !! key) = default [] (o !! key) ++ observed_under key [e].
Proof.
  intros Hl Ho. destruct op as [k|k|j|c j]; simpl.
  - destruct (Observe_usable l k w o Hl Ho) as (w' & HO & Hm & _).
    unfold bind. rewrite HO. eexists _, _, _. split_and!; [done..|].
    intros key. unfold observed_under. simpl.
    case_decide as Hk.
    + subst key. by rewrite lookup_insert_eq.
    + rewrite lookup_insert_ne by done. by rewrite app_nil_r.
  - destruct (Notify_usable sem l k w o Hl Ho) as (w' & HN & _ & Hm & _).
    unfold bind. rewrite HN. eexists _, _, o. split_and!; [done| |].
    + unfold registry_map in *. by rewrite Hm.
    + intros key. by rewrite app_nil_r.
  - destruct (run_go j w) as [w'|] eqn:Hj.
    + apply run_go_Some in Hj as (v & c & _ & _ & ->).
      eexists _, _, o. split_and!; [done..|]. intros key. by rewrite app_nil_r.
    + eexists _, _, o. split_and!; [done..|]. intros key. by rewrite app_nil_r.
  - destruct (recv c j w) as [[b w']|] eqn:Hj.
    + apply recv_Some in Hj as [_ ->].
      eexists _, _, o. split_and!; [done..|]. intros key. by rewrite app_nil_r.
    + eexists _, _, o. split_and!; [done..|]. intros key. by rewrite app_nil_r.
Qed.

Lemma do_ops_usable sem l os w o :
  ObserverLock l = Unlocked → registry_map l w = Some o →
  ∃ es w' o', do_ops sem l os w = (es, Returns tt w') ∧
    length es = length os ∧ registry_map l w' = Some o' ∧
    ∀ key, default [] (o' !! key) = default [] (o !! key) ++ observed_under key es.
Proof.
  intros Hl. revert w o. induction os as [|op os IH]; intros w o Ho; simpl.
  - eexists [], w, o. split_and!; [done..|]. intros key. by rewrite app_nil_r.
  - destruct (do_op_usable sem l op w o Hl Ho) as (e & w1 & o1 & -> & Ho1 & He).
    destruct (IH w1 o1 Ho1) as (es & w' & o' & -> & Hlen & Ho' & Hes).
    eexists (e :: es), w', o'. split_and!; [done|simpl; by rewrite Hlen|done|].
    intros key. rewrite Hes, He, (observed_under_cons key e es), app_assoc. done.
Qed.

Lemma world_ok_do_op sem l op w :
  world_ok w → world_ok (final (do_op sem l op w)).
Proof.
  intros Hw. destruct op as [k|k|j|c j]; simpl.
  - pose proof (world_ok_Observe l k w Hw) as HO. unfold bind.
    by destruct (Observe l k w).
  - pose proof (world_ok_Notify sem l k w Hw) as HN. unfold bind.
    by destruct (Notify sem l k w).
  - destruct (run_go j w) as [w'|] eqn:Hj; [|done]. by eapply world_ok_run_go.
  - destruct (recv c j w) as [[b w']|] eqn:Hj; [|done]. by eapply world_ok_recv.
Qed.

Lemma world_ok_do_ops sem l os w :
  world_ok w → world_ok (final (do_ops sem l os w).2).
Proof.
  revert w. induction os as [|op os IH]; intros w Hw; simpl; [done|].
  pose proof (world_ok_do_op sem l op w Hw) as Hop.
  destruct (do_op sem l op w) as [e w'| |]; [|done..].
  specialize (IH w' Hop). by destruct (do_ops sem l os w').
Qed.

Lemma all_ran_settled w : all_ran w = true → settled w.
Proof.
  unfold all_ran, settled. rewrite forallb_forall. intros Hall j v Hj.
  apply list_elem_of_lookup_2, list_elem_of_In in Hj. by apply Hall in Hj.
Qed.

(** ** What [Notify] starts *)

(** The sends a call of [Notify] starts go to channels registered under the
    text of its key, one send for each registered channel. *)
Lemma Notify_targets sem l k w o :
  world_ok w → ObserverLock l = Unlocked → registry_map l w = Some o →
  ∃ w' ts, Notify sem l k w = Returns tt w' ∧ targets w' = targets w ++ ts ∧
    length ts = length (registered l (String k) w) ∧
    ∀ c, c ∈ ts → c ∈ registered l (String k) w.
Proof.
  intros Hw Hl Ho.
  destruct (Notify_usable sem l k w o Hl Ho) as (w' & HN & Hr & _).
  unfold registered. rewrite Ho.
  destruct sem.
  - destruct (default [] (o !! String k)) as [|c s] eqn:Hs.
    + simpl in Hr. injection Hr as <-. exists w, []. by rewrite app_nil_r.
    + exists w', (replicate (S (length s)) (default c (last s))).
      split_and!; [done|by eapply targets_range_go_PerLoop|by rewrite length_replicate|].
      intros c' [-> _]%elem_of_replicate.
      destruct (last s) as [c'|] eqn:Hlast; simpl; [|left].
      right. apply last_Some in Hlast as [s' ->]. set_solver.
  - exists w', (default [] (o !! String k)).
    split_and!; [done|by eapply targets_range_go_PerIteration|done..].
Qed.

(** With a variable per iteration (Go 1.22) the sends a call of [Notify]
    starts are exactly the registered channels, each once, however the
    goroutines are scheduled afterwards. *)
Lemma Notify_PerIteration_one_send_each l k w o js :
  world_ok w → ObserverLock l = Unlocked → registry_map l w = Some o →
  ∃ w', Notify PerIteration l k w = Returns tt w' ∧
    targets w' = targets w ++ registered l (String k) w ∧
    ∀ w'', run_gos js w' = Some w'' →
      targets w'' = targets w ++ registered l (String k) w ∧
      (settled w'' → pending w'' = targets w ++ registered l (String k) w).
Proof.
  intros Hw Hl Ho.
  destruct (Notify_usable PerIteration l k w o Hl Ho) as (w' & HN & Hr & _).
  exists w'. unfold registered. rewrite Ho.
  pose proof (targets_range_go_PerIteration _ _ _ _ Hw Hr) as Ht.
  split_and!; [done..|]. intros w'' Hrun.
  apply run_gos_targets in Hrun. rewrite <- Ht, <- Hrun.
  split; [done|]. apply pending_settled.
Qed.

(** With one variable for the loop (Go up to 1.21) and the goroutines
    running after the loop, every send goes to the channel registered
    last. *)
Lemma Notify_PerLoop_last_only l k w o s c js :
  world_ok w → ObserverLock l = Unlocked → registry_map l w = Some o →
  registered l (String k) w = s ++ [c] →
  ∃ w', Notify PerLoop l k w = Returns tt w' ∧
    ∀ w'', run_gos js w' = Some w'' →
      targets w'' = targets w ++ replicate (S (length s)) c.
Proof.
  intros Hw Hl Ho Hreg.
  destruct (Notify_usable PerLoop l k w o Hl Ho) as (w' & HN & Hr & _).
  exists w'. split; [done|]. intros w'' Hrun.
  apply run_gos_targets in Hrun. rewrite Hrun.
  unfold registered in Hreg. rewrite Ho in Hreg. rewrite Hreg in Hr.
  destruct s as [|c0 s]; simpl in Hr.
  - by rewrite (targets_range_go_PerLoop c [] w w' Hw Hr).
  - change (c0 :: s ++ [c]) with (c0 :: (s ++ [c])) in Hr.
    rewrite (targets_range_go_PerLoop c0 (s ++ [c]) w w' Hw Hr).
    rewrite last_snoc, length_app. simpl. by rewrite Nat.add_1_r.
Qed.

(** Keys are told apart by their text alone. *)
Lemma same_text_same_key sem l (A B : Key) w :
  String A = String B →
  Notify sem l A w = Notify sem l B w ∧
  map_outcome (λ _, tt) (Observe l A w) = map_outcome (λ _, tt) (Observe l B w).
Proof.
  intros HAB. rewrite !Notify_cases, !Observe_cases, HAB. done.
Qed.

(** * The claims *)

(** ** C9: the plain-text key *)

(** C9.  A [PlainKey] renders itself unchanged: built from the string [s],
    by the struct literal or by [NewPlainKey], its [String()] is [s], and so
    is the [String()] of the [Key] that holds it.  The rendering is a
    function of the key alone. *)
Theorem PlainKey_renders_its_text (s : string) :
  String (NewPlainKey s) = s ∧
  String {| Text := s |} = s ∧
  String (mkKey (NewPlainKey s)) = s ∧
  ∀ pk : PlainKey, String (mkKey pk) = Text pk.
Proof. done. Qed.

(** ** C3: every call of [Observe] gets a channel of its own *)

Lemma observe_all_return l ks w o sem :
  ObserverLock l = Unlocked → registry_map l w = Some o →
  length (omap observed (do_ops sem l (DoObserve <$> ks) w).1) = length ks.
Proof.
  intros Hl. revert w o. induction ks as [|k ks IH]; intros w o Ho; [done|].
  cbn [fmap list_fmap do_ops do_op]. unfold bind at 1.
  destruct (Observe_usable l k w o Hl Ho) as (w' & -> & Ho' & _).
  cbn [ret]. specialize (IH w' _ Ho').
  destruct (do_ops sem l (DoObserve <$> ks) w') as [es r].
  cbn [fst observed omap list_omap length] in *. by f_equal.
Qed.

(** C3.  The channels returned by the calls of [Observe] in a run of a client
    are pairwise distinct, whatever the registry value, the keys (equal or
    not) and the calls of [Notify] in between; and on a registry built by
    the constructor each of [N] calls of [Observe] returns, so these are [N]
    distinct channels. *)
Theorem Observe_channels_pairwise_distinct (sem : loopvar) :
  (∀ l os w, NoDup (omap observed (do_ops sem l os w).1)) ∧
  (∀ w0 ks, ∃ l w1, NewConcurrentObservable w0 = Returns l w1 ∧
     length (omap observed (do_ops sem l (DoObserve <$> ks) w1).1) = length ks).
Proof.
  split.
  - intros l os w. apply do_ops_fresh.
  - intros w0 ks.
    destruct (NewConcurrentObservable_usable w0) as (l & w1 & HN & Hl & Ho & _).
    exists l, w1. split; [done|]. by eapply observe_all_return.
Qed.

(** ** C5: what [Observe] does *)

(** C5.  On a usable registry (own lock free, map made) [Observe] returns a
    channel that is new: it was not made before, so no map entry, captured
    variable or send of the world mentions it, and no send waits on it
    afterwards (it is empty; a channel has no buffer in this model).  The
    channel is appended at the end of the sequence stored under the text of
    the key, a missing sequence counting as empty, and the channel returned
    is the channel stored. *)
Theorem Observe_appends_a_new_channel l k w o :
  world_ok w → ObserverLock l = Unlocked → registry_map l w = Some o →
  ∃ observer w',
    Observe l k w = Returns observer w' ∧
    (observer = chans w) ∧ (chans w' = S (chans w)) ∧
    (∀ a (m : observers) t s, maps w !! a = Some m → m !! t = Some s → observer ∉ s) ∧
    (observer ∉ vars w') ∧ (observer ∉ targets w') ∧ gos w' = gos w ∧
    registry_map l w' = Some (<[String k := default [] (o !! String k) ++ [observer]]> o) ∧
    registered l (String k) w' = registered l (String k) w ++ [observer] ∧
    last (registered l (String k) w') = Some observer.
Proof.
  intros Hw Hl Ho.
  destruct (Observe_usable l k w o Hl Ho) as (w' & HO & Ho' & Hc & Hv & Hg & _).
  exists (chans w), w'. destruct Hw as (Hm & Hvars & Hgos).
  assert (registered l (String k) w' = registered l (String k) w ++ [chans w]) as Hreg.
  { unfold registered. by rewrite Ho', Ho, lookup_insert_eq. }
  split_and!; try done.
  - intros a m t s Ha Ht Hin. specialize (Hm _ _ _ _ _ Ha Ht Hin). lia.
  - rewrite Hv. intros Hin. specialize (Hvars _ Hin). lia.
  - unfold targets. rewrite Hg. intros (g & Hin & Ht)%list_elem_of_omap.
    specialize (Hgos g Hin). destruct g as [v|c [|]|]; simpl in *; try done.
    + rewrite Hv in Ht. apply list_elem_of_lookup_2 in Ht.
      specialize (Hvars _ Ht). lia.
    + simplify_eq. lia.
  - rewrite Hreg. apply last_snoc.
Qed.

Lemma first_world_ok : world_ok first_world.
Proof. apply (world_ok_make_map empty_World), world_ok_empty. Qed.

Lemma Observe_appends_a_new_channel_witness :
  ∃ observer w',
    Observe first_registry x_key first_world = Returns observer w' ∧
    (observer = chans first_world) ∧ (chans w' = S (chans first_world)) ∧
    (∀ a (m : observers) t s,
       maps first_world !! a = Some m → m !! t = Some s → observer ∉ s) ∧
    (observer ∉ vars w') ∧ (observer ∉ targets w') ∧ gos w' = gos first_world ∧
    registry_map first_registry w' =
      Some (<[String x_key := default [] ((∅ : observers) !! String x_key) ++ [observer]]> ∅) ∧
    registered first_registry (String x_key) w' =
      registered first_registry (String x_key) first_world ++ [observer] ∧
    last (registered first_registry (String x_key) w') = Some observer.
Proof.
  apply (Observe_appends_a_new_channel first_registry x_key first_world ∅).
  - apply first_world_ok.
  - reflexivity.
  - reflexivity.
Defined.

(** ** C6: what is in the map was handed out *)

Lemma filter_omap_absent {A B} `{EqDecision B} (f : A → option B) (l : list A) y :
  y ∉ omap f l → filter (λ x, f x = Some y) l = [].
Proof.
  induction l as [|x l IH]; simpl; intros Hy; [done|].
  rewrite filter_cons. destruct (f x) as [z|] eqn:Hx.
  - apply not_elem_of_cons in Hy as [Hne Hy].
    rewrite decide_False by congruence. by apply IH.
  - rewrite decide_False by done. by apply IH.
Qed.

Lemma NoDup_omap_once {A B} `{EqDecision B} (f : A → option B) (l : list A) y :
  NoDup (omap f l) → y ∈ omap f l →
  length (filter (λ x, f x = Some y) l) = 1.
Proof.
  induction l as [|x l IH]; simpl; intros Hnd Hin.
  - by apply not_elem_of_nil in Hin.
  - rewrite filter_cons. destruct (f x) as [z|] eqn:Hx.
    + apply NoDup_cons in Hnd as [Hz Hnd].
      apply elem_of_cons in Hin as [->|Hin].
      * rewrite decide_True by done. simpl.
        by rewrite filter_omap_absent.
      * rewrite decide_False; [by apply IH|].
        intros [= ->]. done.
    + rewrite decide_False by done. by apply IH.
Qed.

(** C6.  A registry is built by the constructor, in any world, and a client
    runs any finite sequence of operations on it.  Every operation returns,
    and afterwards every channel in the map, under any key text, was returned
    by a call of [Observe] whose key had that text, and by exactly one call
    of [Observe] in the run. *)
Theorem registered_channels_were_observed (sem : loopvar) (w0 : World) (os : list op) :
  ∃ l w1 es w o,
    NewConcurrentObservable w0 = Returns l w1 ∧
    do_ops sem l os w1 = (es, Returns tt w) ∧
    registry_map l w = Some o ∧
    ∀ key s c, o !! key = Some s → c ∈ s →
      Observed key c ∈ es ∧
      length (filter (λ e, observed e = Some c) es) = 1.
Proof.
  destruct (NewConcurrentObservable_usable w0) as (l & w1 & HN & Hl & Ho & _).
  destruct (do_ops_usable sem l os w1 ∅ Hl Ho) as (es & w & o & Hrun & _ & Ho' & Hes).
  exists l, w1, es, w, o. split_and!; [done..|].
  intros key s c Hs Hc.
  assert (Observed key c ∈ es) as Hin.
  { apply elem_of_observed_under. specialize (Hes key).
    rewrite Hs, lookup_empty in Hes. simpl in Hes. by rewrite <- Hes. }
  split; [done|].
  apply NoDup_omap_once.
  - pose proof (do_ops_fresh sem l os w1) as (_ & _ & Hnd). by rewrite Hrun in Hnd.
  - apply list_elem_of_omap. by exists (Observed key c).
Qed.

(** ** C7: nothing is ever removed *)

Lemma Notify_maps sem l k w : maps (final (Notify sem l k w)) = maps w.
Proof.
  rewrite Notify_cases.
  destruct (ObserverLock l); [|done].
  destruct (observers_ref l) as [a|]; [|done].
  destruct (maps w !! a) as [o|]; [|done].
  by destruct (range_go_returns sem (default [] (o !! String k)) None w)
    as (w' & -> & Hm & _).
Qed.

Lemma Observe_keeps l k w key c :
  c ∈ registered l key w → c ∈ registered l key (final (Observe l k w)).
Proof.
  unfold registered at 1.
  destruct (registry_map l w) as [o|] eqn:Ho; [|by intros ?%not_elem_of_nil].
  intros Hc. rewrite Observe_cases.
  apply registry_map_Some in Ho as (a & Ha & Ho). rewrite Ha, Ho.
  destruct (ObserverLock l); simpl.
  - unfold registered, registry_map. rewrite Ha. simpl.
    rewrite list_lookup_insert_eq by (by eapply lookup_lt_Some).
    destruct (decide (key = String k)) as [->|Hne].
    + rewrite lookup_insert_eq. simpl. set_solver.
    + by rewrite lookup_insert_ne.
  - unfold registered, registry_map. by rewrite Ha, Ho.
Qed.

Lemma do_op_keeps sem l op w key c :
  c ∈ registered l key w → c ∈ registered l key (final (do_op sem l op w)).
Proof.
  intros Hc. destruct op as [k|k|j|c' j]; simpl.
  - pose proof (Observe_keeps l k w key c Hc) as HO. unfold bind.
    by destruct (Observe l k w).
  - pose proof (Notify_maps sem l k w) as HN. unfold bind.
    unfold registered, registry_map in *.
    destruct (Notify sem l k w); simpl in *; by rewrite HN.
  - destruct (run_go j w) as [w'|] eqn:Hj; [|done].
    by apply run_go_Some in Hj as (v & c'' & _ & _ & ->).
  - destruct (recv c' j w) as [[b w']|] eqn:Hj; [|done].
    by apply recv_Some in Hj as [_ ->].
Qed.

(** C7.  No operation removes a channel from the map: [Notify] leaves every
    map object as it is, however it ends; a channel registered under a key
    text is still registered under it after any operation, however that
    ends; and on a usable registry [Observe] replaces the entry of its key's
    text by that entry with the returned channel appended, leaving every
    other entry of the map and every other map object as they are. *)
Theorem registry_never_shrinks (sem : loopvar) (l : ConcurrentObservable)
    (k : Key) (w : World) :
  maps (final (Notify sem l k w)) = maps w ∧
  (∀ op key c, c ∈ registered l key w →
     c ∈ registered l key (final (do_op sem l op w))) ∧
  (∀ o, ObserverLock l = Unlocked → registry_map l w = Some o →
     ∃ c w', Observe l k w = Returns c w' ∧
       registry_map l w' = Some (<[String k := registered l (String k) w ++ [c]]> o) ∧
       registered l (String k) w' = registered l (String k) w ++ [c] ∧
       (∀ key, key ≠ String k → registered l key w' = registered l key w) ∧
       (∀ b, observers_ref l ≠ Some b → maps w' !! b = maps w !! b)).
Proof.
  split_and!.
  - apply Notify_maps.
  - intros op key c. apply do_op_keeps.
  - intros o Hl Ho.
    destruct (Observe_usable l k w o Hl Ho) as (w' & HO & Ho' & _ & _ & _ & _ & Hb).
    exists (chans w), w'.
    assert (registered l (String k) w = default [] (o !! String k)) as Hreg
      by (unfold registered; by rewrite Ho).
    rewrite Hreg. split_and!; [done..| | |done].
    + unfold registered. by rewrite Ho', lookup_insert_eq.
    + intros key Hne. unfold registered. rewrite Ho', Ho.
      by rewrite lookup_insert_ne.
Qed.

Lemma registry_never_shrinks_witness :
  ∃ c w', Observe first_registry x_key first_world = Returns c w' ∧
    registry_map first_registry w' =
      Some (<[String x_key := registered first_registry (String x_key) first_world ++ [c]]> ∅) ∧
    registered first_registry (String x_key) w' =
      registered first_registry (String x_key) first_world ++ [c] ∧
    (∀ key, key ≠ String x_key →
       registered first_registry key w' = registered first_registry key first_world) ∧
    (∀ b, observers_ref first_registry ≠ Some b →
       maps w' !! b = maps first_world !! b).
Proof.
  apply (registry_never_shrinks PerLoop first_registry x_key first_world).
  - reflexivity.
  - reflexivity.
Defined.

(** ** C8: a key nobody observes *)

(** A key text no call of [Observe] was made for has no registered
    channel. *)
Lemma unobserved_key_has_no_channel sem w0 os l w1 es w key :
  NewConcurrentObservable w0 = Returns l w1 →
  do_ops sem l os w1 = (es, Returns tt w) →
  (∀ c, Observed key c ∉ es) →
  usable l w ∧ registered l key w = [].
Proof.
  intros HN Hrun Hnone.
  destruct (NewConcurrentObservable_usable w0) as (l' & w1' & HN' & Hl & Ho & _).
  rewrite HN in HN'. injection HN' as <- <-.
  destruct (do_ops_usable sem l os w1 ∅ Hl Ho) as (es' & w' & o & Hrun' & _ & Ho' & Hes).
  rewrite Hrun in Hrun'. injection Hrun' as <- <-.
  split; [by split; [|rewrite Ho']|].
  unfold registered. rewrite Ho', Hes, lookup_empty. simpl.
  destruct (observed_under key es) as [|c s] eqn:Hobs; [done|].
  destruct (Hnone c). apply elem_of_observed_under. rewrite Hobs. left.
Qed.

(** C8.  On a usable registry, [Notify] on a key whose text has no
    registered channel returns (it neither blocks nor panics) and leaves the
    world exactly as it was: no goroutine is started, no send is on its
    way that was not before, and no map changes. *)
Theorem Notify_without_observers_is_a_noop (sem : loopvar) l k w :
  usable l w → registered l (String k) w = [] →
  Notify sem l k w = Returns tt w ∧
  gos (final (Notify sem l k w)) = gos w ∧
  targets (final (Notify sem l k w)) = targets w ∧
  maps (final (Notify sem l k w)) = maps w.
Proof.
  intros [Hl [o Ho]] Hreg.
  assert (Notify sem l k w = Returns tt w) as ->; [|done].
  destruct (Notify_usable sem l k w o Hl Ho) as (w' & -> & Hr & _).
  unfold registered in Hreg. rewrite Ho in Hreg. rewrite Hreg in Hr.
  simpl in Hr. by injection Hr as <-.
Qed.

Lemma Notify_without_observers_is_a_noop_witness :
  Notify PerLoop first_registry y_key first_world = Returns tt first_world ∧
  gos (final (Notify PerLoop first_registry y_key first_world)) = gos first_world ∧
  targets (final (Notify PerLoop first_registry y_key first_world)) = targets first_world ∧
  maps (final (Notify PerLoop first_registry y_key first_world)) = maps first_world.
Proof.
  apply (Notify_without_observers_is_a_noop PerLoop first_registry y_key first_world).
  - split; [reflexivity|]. exists ∅. reflexivity.
  - reflexivity.
Defined.

(** ** C10: the zero value *)

(** [Observe] returns exactly when the registry's own lock is free and its
    map was made. *)
Lemma Observe_returns_iff l k w :
  (∃ c w', Observe l k w = Returns c w') ↔ usable l w.
Proof.
  rewrite Observe_cases. unfold usable, registry_map. split.
  - intros (c & w' & H). destruct (ObserverLock l); [|done].
    destruct (observers_ref l) as [a|]; [|done].
    destruct (maps w !! a) as [o|]; [|done]. eauto.
  - intros [-> [o Ho]]. destruct (observers_ref l) as [a|]; [|done].
    rewrite Ho. eauto.
Qed.

(** C10.  On the zero value [ConcurrentObservable{}], whose map is nil,
    [Notify] returns and leaves the world as it was, and [Observe] panics at
    the assignment into the nil map (after it made its channel).  [Observe]
    returns exactly on the registry values whose map was made (and whose own
    lock is free), and outside the package only the constructor makes the
    map: on a registry built by [NewConcurrentObservable], after any
    operations of a client, [Observe] returns. *)
Theorem zero_value_registry (sem : loopvar) (k : Key) (w : World) :
  Notify sem zero_ConcurrentObservable k w = Returns tt w ∧
  Observe zero_ConcurrentObservable k w =
    Panics "assignment to entry in nil map" (set_chans S w) ∧
  (∀ l, (∃ c w', Observe l k w = Returns c w') ↔ usable l w) ∧
  ∀ os, ∃ l w1 es w2 c w3,
    NewConcurrentObservable w = Returns l w1 ∧
    do_ops sem l os w1 = (es, Returns tt w2) ∧
    Observe l k w2 = Returns c w3.
Proof.
  split_and!; [done..| |].
  { intros l. apply Observe_returns_iff. }
  intros os.
  destruct (NewConcurrentObservable_usable w) as (l & w1 & HN & Hl & Ho & _).
  destruct (do_ops_usable sem l os w1 ∅ Hl Ho) as (es & w2 & o & Hrun & _ & Ho' & _).
  destruct (Observe_usable l k w2 o Hl Ho') as (w3 & HO & _).
  by exists l, w1, es, w2, (chans w2), w3.
Qed.

(** ** The calls, statement by statement *)

(** A call of [Observe] that runs with nothing in between does what the
    function [Observe] says, in five statements. *)
Lemma Observe_alone sem l k w :
  alone sem 5 (ObserveLock l k) w = Some (map_outcome Some (Observe l k w)).
Proof.
  rewrite Observe_cases.
  destruct l as [d [|] [a|]]; cbn [ObserverLock observers_ref];
    try destruct (maps w !! a) as [o|] eqn:Ho;
    repeat (progress (simpl; unfold next; rewrite ?Ho)); done.
Qed.

Lemma NotifyRange_alone sem s v w :
  alone sem (S (length s)) (NotifyRange Locked s v) w =
  Some (map_outcome (λ _, None) (range_go sem s v w)).
Proof.
  revert v w. induction s as [|c s IH]; intros v w; [done|].
  cbn [length alone step_frame range_go]. unfold next, bind at 1 2 3.
  destruct (bind_var sem v c w) as [a w1| |] eqn:Hb; [|by destruct sem, v..].
  cbn [go ret]. apply IH.
Qed.

(** So does a call of [Notify], in as many statements as there are
    registered channels, and three more. *)
Lemma Notify_alone sem l k w :
  alone sem (3 + length (registered l (String k) w)) (NotifyLock l k) w =
  Some (map_outcome (λ _, None) (Notify sem l k w)).
Proof.
  rewrite Notify_cases. unfold registered, registry_map.
  destruct l as [d [|] [a|]]; cbn [ObserverLock observers_ref]; [|done..].
  destruct (maps w !! a) as [o|] eqn:Ho.
  - rewrite <- NotifyRange_alone.
    change (3 + ?n) with (S (S (S n))).
    cbn [alone step_frame]. unfold next at 1. cbn [Lock ObserverLock ret].
    cbn [alone step_frame]. unfold next at 1. cbn [map_index observers_ref].
    by rewrite Ho.
  - repeat (progress (simpl; unfold next; rewrite ?Ho)); done.
Qed.

(** ** The lock excludes nobody *)

(** A call made on a registry whose own lock is free gets past its [Lock]
    whatever the other calls are doing: what it locks is its own copy. *)
Lemma Lock_never_waits sem (m : Machine) i l k :
  ObserverLock l = Unlocked →
  frames m !! i = Some (ObserveLock l k) ∨ frames m !! i = Some (NotifyLock l k) →
  ∃ m', step sem (Call i) m = Some m' ∧ world m' = world m ∧
        ∃ f, frames m' !! i = Some f ∧ holds_lock f = true.
Proof.
  intros Hl [Hi|Hi]; unfold step; rewrite Hi; simpl; unfold next; rewrite Hl; simpl;
    (eexists; split; [done|]; split; [done|]); simpl;
    (eexists; split; [apply list_lookup_insert_eq; by eapply lookup_lt_Some|done]).
Qed.

(** ** C1: one variable for all the goroutines *)

(** C1, at two observers of one key, with the loop variable of Go up to 1.21
    and the goroutines running once the loop is over.  The client builds a
    registry, observes ["x"] twice and notifies ["x"].  Both channels are
    registered and they differ; [Notify] starts two goroutines, and both
    capture the same variable.  When they run, both send on the second
    channel: two sends wait there and none on the first.  A reader of the
    first channel finds no sender, a reader of the second receives [true]
    twice. *)
Theorem Notify_sends_twice_to_the_last_observer :
  ∃ l c1 c2 w w' w'',
    two_observers PerLoop x_key x_key x_key empty_World = Returns (l, c1, c2) w ∧
    registered l (String x_key) w = [c1; c2] ∧ c1 ≠ c2 ∧
    gos w = [Closure 0; Closure 0] ∧
    run_gos [0; 1] w = Some w' ∧ all_ran w' = true ∧
    pending w' = [c2; c2] ∧
    (∀ j, recv c1 j w' = None) ∧
    (let* _ := do_op PerLoop l (DoRecv c2 0) in do_op PerLoop l (DoRecv c2 1)) w'
      = Returns (Received c2 true) w'' ∧
    delivered w'' = [c2; c2] ∧ all_exited w'' = true.
Proof.
  eexists _, 0, 1, _, _, _. split; [vm_compute; reflexivity|].
  split; [vm_compute; reflexivity|]. split; [done|].
  split; [reflexivity|]. split; [vm_compute; reflexivity|].
  split; [reflexivity|]. split; [reflexivity|].
  split; [by intros [|[|j]]|].
  split; [vm_compute; reflexivity|]. split; reflexivity.
Qed.

(** ** C2: two calls in the lock at once *)

(** C2, at two calls of [Observe] on one registry built by the constructor,
    running at the same time.  Each call locks its own copy of
    [ObserverLock], so after two statements both are past [Lock] and
    neither has unlocked.  Both read the empty entry of ["x"], both assign
    their one-element slice, and the second assignment replaces the first:
    both calls return a channel, only the second channel is registered.  The
    same two calls one after the other register both. *)
Theorem concurrent_Observe_loses_a_subscription (sem : loopvar) :
  let m0 := {| world := first_world;
               frames := [ObserveLock first_registry x_key;
                          ObserveLock first_registry x_key] |} in
  NewConcurrentObservable empty_World = Returns first_registry first_world ∧
  ∃ m1 m2,
    run sem [Call 0; Call 1] m0 = Some m1 ∧
    forallb holds_lock (frames m1) = true ∧
    run sem [Call 0; Call 1; Call 0; Call 1; Call 0; Call 1; Call 0; Call 1] m1 = Some m2 ∧
    frames m2 = [Returned (Some 0); Returned (Some 1)] ∧
    registered first_registry (String x_key) (world m2) = [1] ∧
    registered first_registry (String x_key)
      (final (do_ops sem first_registry [DoObserve x_key; DoObserve x_key] first_world).2)
      = [0; 1].
Proof.
  split; [reflexivity|]. eexists _, _.
  split; [reflexivity|]. split; [reflexivity|].
  split; [vm_compute; reflexivity|]. split; [reflexivity|].
  split; vm_compute; reflexivity.
Qed.

(** ** C4: keys and their text *)

Lemma observed_once_one_key es t1 t2 c :
  NoDup (omap observed es) → Observed t1 c ∈ es → Observed t2 c ∈ es → t1 = t2.
Proof.
  induction es as [|e es IH]; intros Hnd H1 H2; [by apply not_elem_of_nil in H1|].
  assert (∀ t, Observed t c ∈ es → c ∈ omap observed es) as Hin.
  { intros t Ht. apply list_elem_of_omap. by exists (Observed t c). }
  apply elem_of_cons in H1 as [<-|H1]; apply elem_of_cons in H2 as [H2|H2].
  - congruence.
  - simpl in Hnd. apply NoDup_cons in Hnd as [Hc _]. destruct Hc. eauto.
  - subst e. simpl in Hnd. apply NoDup_cons in Hnd as [Hc _]. destruct Hc. eauto.
  - apply IH; [|done..]. simpl in Hnd. destruct (observed e); [|done].
    by apply NoDup_cons in Hnd as [_ ?].
Qed.

(** The half of C4 that holds with either loop variable: after any run of a
    client on a registry built by the constructor, the sends a call of
    [Notify] on key [A] starts go to channels that were returned by
    [Observe] for a key of the same text as [A], and to no channel returned
    for a key of another text. *)
Lemma Notify_signals_its_key_only sem w0 os l w1 es w (A : Key) :
  world_ok w0 →
  NewConcurrentObservable w0 = Returns l w1 →
  do_ops sem l os w1 = (es, Returns tt w) →
  ∃ w' ts, Notify sem l A w = Returns tt w' ∧ targets w' = targets w ++ ts ∧
    (∀ c, c ∈ ts → Observed (String A) c ∈ es) ∧
    (∀ t c, Observed t c ∈ es → t ≠ String A → c ∉ ts).
Proof.
  intros Hw0 HN Hrun.
  destruct (NewConcurrentObservable_usable w0) as (l' & w1' & HN' & Hl & Ho & _).
  rewrite HN in HN'. injection HN' as <- <-.
  destruct (do_ops_usable sem l os w1 ∅ Hl Ho) as (es' & w' & o & Hrun' & _ & Ho' & Hes).
  rewrite Hrun in Hrun'. injection Hrun' as <- <-.
  assert (world_ok w) as Hw.
  { pose proof (world_ok_do_ops sem l os w1) as Hok. rewrite Hrun in Hok.
    apply Hok. injection HN as _ <-. by apply world_ok_make_map. }
  destruct (Notify_targets sem l A w o Hw Hl Ho') as (w2 & ts & HNot & Ht & _ & Hts).
  assert (∀ c, c ∈ ts → Observed (String A) c ∈ es) as Hobs.
  { intros c Hc. apply Hts in Hc. unfold registered in Hc.
    rewrite Ho', Hes, lookup_empty in Hc. by apply elem_of_observed_under. }
  exists w2, ts. split_and!; [done..|].
  intros t c Ht' Hne Hc. apply Hne.
  eapply observed_once_one_key; [|done|by apply Hobs].
  pose proof (do_ops_fresh sem l os w1) as (_ & _ & Hnd). by rewrite Hrun in Hnd.
Qed.

(** C4, at two observers whose key is of the client's type [Topic] and a
    call of [Notify] with the [PlainKey] of the same text, with the loop
    variable of Go up to 1.21.  The two keys render the same text and the
    first channel is registered under it, yet when the call has returned and
    both goroutines have run, after the loop had assigned its variable for
    the second time, no send waits on the first channel. *)
Theorem Notify_same_text_misses_an_observer :
  ∃ l c1 c2 w m,
    (let* l := NewConcurrentObservable in
     let* c1 := Observe l topic_key in
     let* c2 := Observe l topic_key in
     ret (l, c1, c2)) empty_World = Returns (l, c1, c2) w ∧
    String x_key = String topic_key ∧
    run PerLoop [Call 0; Call 0; Call 0; Call 0; Go 0; Go 1; Call 0]
      {| world := w; frames := [NotifyLock l x_key] |} = Some m ∧
    frames m = [Returned None] ∧ all_ran (world m) = true ∧
    c1 ∈ registered l (String topic_key) (world m) ∧
    (c1 ∉ pending (world m)) ∧ pending (world m) = [c2; c2].
Proof.
  eexists _, 0, 1, _, _. split; [vm_compute; reflexivity|].
  split; [reflexivity|]. split; [vm_compute; reflexivity|].
  split; [reflexivity|]. split; [reflexivity|].
  split; [vm_compute; left|].
  split; [|reflexivity].
  vm_compute. by intros [?|[?|?%not_elem_of_nil]%elem_of_cons]%elem_of_cons.
Qed.

(** ** A variable per iteration: every schedule *)

Lemma all_sends_run_go j w w' : run_go j w = Some w' → all_sends w' = all_sends w.
Proof.
  intros (v & c & Hj & Hv & ->)%run_go_Some. unfold all_sends. simpl.
  erewrite omap_insert_same; [|done|by simpl]. done.
Qed.

Lemma all_sends_recv c j w b w' :
  recv c j w = Some (b, w') → all_sends w' = all_sends w.
Proof.
  intros [Hj ->]%recv_Some. unfold all_sends. simpl.
  erewrite omap_insert_same; [|done|by simpl]. done.
Qed.

Lemma omap_agree {A B} (f g : A → option B) (l : list A) :
  (∀ x, x ∈ l → f x = g x) → omap f l = omap g l.
Proof.
  induction l as [|x l IH]; intros Hfg; [done|]. cbn [omap list_omap].
  rewrite (Hfg x) by left. rewrite IH; [done|]. intros y Hy. apply Hfg. by right.
Qed.

Lemma all_sends_iteration c v w a w1 :
  world_ok w → bind_var PerIteration v c w = Returns a w1 →
  all_sends (set_gos (λ gs, gs ++ [Closure a]) w1) = all_sends w ++ [c].
Proof.
  intros (_ & _ & Hg) Hb.
  assert (a = length (vars w) ∧ w1 = set_vars (λ h, h ++ [c]) w) as [-> ->]
    by (destruct v; simpl in Hb; by simplify_eq).
  unfold all_sends. simpl. rewrite omap_app. f_equal.
  - apply omap_agree. intros g Hin. specialize (Hg g Hin).
    destruct g as [v'|c' b|c' b]; simpl in *; [|done..].
    by apply lookup_app_l.
  - simpl. by rewrite lookup_app_r, Nat.sub_diag by lia.
Qed.

Lemma all_exited_delivered w : all_exited w = true → delivered w = all_sends w.
Proof.
  unfold all_exited, delivered, all_sends. rewrite forallb_forall. intros Hall.
  apply omap_agree. intros g Hg%list_elem_of_In%Hall. by destruct g.
Qed.

Lemma notify_inv_step l k w o m a m' :
  ObserverLock l = Unlocked → registry_map l w = Some o →
  notify_inv l k w (default [] (o !! String k)) m →
  step PerIteration a m = Some m' →
  notify_inv l k w (default [] (o !! String k)) m'.
Proof.
  intros Hl Ho (Hw & Hm & Hf) Hstep. destruct a as [i|j|c j]; simpl in Hstep.
  - destruct (frames m) as [|f [|f' fs]] eqn:Hfs; [done| |by destruct f].
    destruct i as [|i]; simpl in Hstep; [|done].
    destruct (step_frame PerIteration f (world m)) as [[f1 w1]|] eqn:Hs; [|done].
    injection Hstep as <-. unfold notify_inv. simpl.
    destruct f as [| | | | |l' k'|l' k' mu|mu rest v| |r|]; try done.
    + destruct Hf as (-> & -> & Hsends). simpl in Hs. unfold next in Hs.
      rewrite Hl in Hs. simpl in Hs. injection Hs as <- <-. done.
    + destruct Hf as (-> & -> & -> & Hsends). simpl in Hs. unfold next in Hs.
      apply registry_map_Some in Ho as (b & Hb & Ho).
      rewrite Hb in Hs. simpl in Hs. rewrite Hm, Ho in Hs. injection Hs as <- <-.
      split_and!; [done..|]. exists []. by rewrite app_nil_r.
    + destruct Hf as (-> & Hv & passed & Hpassed & Hsends).
      destruct rest as [|c rest]; simpl in Hs; unfold next in Hs; simpl in Hs.
      * injection Hs as <- <-. rewrite app_nil_r in Hpassed.
        split_and!; [done..|]. by rewrite Hpassed.
      * unfold bind in Hs. simpl in Hs. injection Hs as <- <-.
        assert (bind_var PerIteration v c (world m) =
                Returns (length (vars (world m)))
                  (set_vars (λ h, h ++ [c]) (world m))) as Hbv by (by destruct v).
        destruct (world_ok_bind_var PerIteration v c (world m)
                    (length (vars (world m)))
                    (set_vars (λ h, h ++ [c]) (world m)) Hw)
          as (Hw2 & Ha & Hm2 & _); [|done|exact Hbv|].
        { destruct Hw as (Hmaps & _).
          apply registry_map_Some in Ho as (b & Hb & Ho). rewrite <- Hm in Ho.
          destruct (o !! String k) as [s|] eqn:Hs'; simpl in Hpassed; [|by destruct passed].
          eapply Hmaps; [done..|]. rewrite Hpassed. set_solver. }
        split_and!; [done|simpl; congruence|done| |].
        { by intros a' [= <-]. }
        exists (passed ++ [c]). rewrite <- app_assoc. split; [done|].
        rewrite (all_sends_iteration c v (world m) _ _ Hw Hbv), Hsends.
        by rewrite app_assoc.
  - destruct (run_go j (world m)) as [w1|] eqn:Hj; [|done]. injection Hstep as <-.
    pose proof (all_sends_run_go _ _ _ Hj) as Hsends.
    pose proof (world_ok_run_go _ _ _ Hw Hj) as Hw1.
    apply run_go_Some in Hj as (v & c & _ & _ & Hw1').
    unfold notify_inv. simpl. rewrite Hsends.
    split_and!; [done|by rewrite Hw1'|by rewrite Hw1'].
  - destruct (recv c j (world m)) as [[b w1]|] eqn:Hj; [|done]. injection Hstep as <-.
    pose proof (all_sends_recv _ _ _ _ _ Hj) as Hsends.
    pose proof (world_ok_recv _ _ _ _ _ Hw Hj) as Hw1.
    apply recv_Some in Hj as [_ Hw1'].
    unfold notify_inv. simpl. rewrite Hsends.
    split_and!; [done|by rewrite Hw1'|by rewrite Hw1'].
Qed.

(** With a variable per iteration (Go 1.22), however the call of [Notify],
    the goroutines it starts and the readers are scheduled: once the call
    has returned, one send was started for each registered channel, in
    order, beside those that were there before; and once every goroutine
    has ended these are the values the readers received. *)
Lemma Notify_PerIteration_any_schedule l k w o sched m :
  world_ok w → ObserverLock l = Unlocked → registry_map l w = Some o →
  run PerIteration sched {| world := w; frames := [NotifyLock l k] |} = Some m →
  ∀ r, frames m = [Returned r] →
    all_sends (world m) = all_sends w ++ registered l (String k) w ∧
    (all_exited (world m) = true →
       delivered (world m) = all_sends w ++ registered l (String k) w).
Proof.
  intros Hw Hl Ho Hrun.
  assert (notify_inv l k w (default [] (o !! String k)) m) as (_ & _ & Hinv).
  { revert Hrun.
    assert (notify_inv l k w (default [] (o !! String k))
              {| world := w; frames := [NotifyLock l k] |}) as H0 by done.
    revert H0. generalize {| world := w; frames := [NotifyLock l k] |}.
    induction sched as [|a sched IH]; intros m0 H0; simpl.
    - by intros [= <-].
    - destruct (step PerIteration a m0) as [m1|] eqn:Hs; [|done].
      apply IH. by eapply notify_inv_step. }
  intros r Hr. rewrite Hr in Hinv. destruct Hinv as [_ Hsends].
  unfold registered. rewrite Ho. split; [done|].
  intros Hall. by rewrite all_exited_delivered.
Qed.

(** * Further properties of the code *)

(** ** The map is the record of the subscriptions *)

(** X1.  A registry is built by the constructor and a client runs any
    operations on it, one after another.  Then, for every key text, the
    sequence stored under it is exactly the channels [Observe] returned for
    keys of that text, in the order of the calls: no subscription is missing,
    none is there twice, none is out of order. *)
Theorem registered_in_subscription_order (sem : loopvar) (w0 : World) (os : list op) :
  ∃ l w1 es w,
    NewConcurrentObservable w0 = Returns l w1 ∧
    do_ops sem l os w1 = (es, Returns tt w) ∧
    ∀ key, registered l key w = observed_under key es.
Proof.
  destruct (NewConcurrentObservable_usable w0) as (l & w1 & HN & Hl & Ho & _).
  destruct (do_ops_usable sem l os w1 ∅ Hl Ho) as (es & w & o & Hrun & _ & Ho' & Hes).
  exists l, w1, es, w. split_and!; [done..|].
  intros key. unfold registered. by rewrite Ho', Hes, lookup_empty.
Qed.

(** ** Keys *)

(** X2.  After any run of a client on a registry built by the constructor
    in a memory-safe world, the sends a call of [Notify] on key [A] starts go
    only to channels that [Observe] returned for a key of the text of [A];
    a channel returned for a key of another text gets none of them, also
    after the goroutines have run in any order.  This holds with either
    loop variable. *)
Theorem Notify_reaches_no_other_key (sem : loopvar) (w0 : World) (os : list op) (A : Key) :
  world_ok w0 →
  ∃ l w1 es w w' ts,
    NewConcurrentObservable w0 = Returns l w1 ∧
    do_ops sem l os w1 = (es, Returns tt w) ∧
    Notify sem l A w = Returns tt w' ∧
    targets w' = targets w ++ ts ∧
    (∀ c, c ∈ ts → Observed (String A) c ∈ es) ∧
    (∀ t c, Observed t c ∈ es → t ≠ String A → c ∉ ts) ∧
    ∀ js w'', run_gos js w' = Some w'' → targets w'' = targets w ++ ts.
Proof.
  intros Hw0.
  destruct (NewConcurrentObservable_usable w0) as (l & w1 & HN & Hl & Ho & _).
  destruct (do_ops_usable sem l os w1 ∅ Hl Ho) as (es & w & o & Hrun & _).
  destruct (Notify_signals_its_key_only sem w0 os l w1 es w A Hw0 HN Hrun)
    as (w' & ts & HNot & Ht & Hin & Hout).
  exists l, w1, es, w, w', ts. split_and!; [done..|].
  intros js w'' Hjs. by rewrite (run_gos_targets _ _ _ Hjs).
Qed.

Lemma Notify_reaches_no_other_key_witness :
  ∃ l w1 es w w' ts,
    NewConcurrentObservable empty_World = Returns l w1 ∧
    do_ops PerLoop l [DoObserve x_key; DoObserve y_key] w1 = (es, Returns tt w) ∧
    Notify PerLoop l y_key w = Returns tt w' ∧
    targets w' = targets w ++ ts ∧
    (∀ c, c ∈ ts → Observed (String y_key) c ∈ es) ∧
    (∀ t c, Observed t c ∈ es → t ≠ String y_key → c ∉ ts) ∧
    ∀ js w'', run_gos js w' = Some w'' → targets w'' = targets w ++ ts.
Proof.
  apply (Notify_reaches_no_other_key PerLoop empty_World
           [DoObserve x_key; DoObserve y_key] y_key).
  split; [|split]; simpl.
  - intros a o t s c Ha. destruct a; discriminate Ha.
  - intros c Hc. inversion Hc.
  - intros g Hg. inversion Hg.
Defined.

(** X3.  Keys are told apart by their rendered text alone: for two keys of
    any types with the same [String()], [Observe] and [Notify] do exactly the
    same, and the channel [Observe] returns for one is registered under the
    text of the other. *)
Theorem keys_are_their_text (sem : loopvar) (l : ConcurrentObservable) (A B : Key) (w : World) :
  String A = String B →
  Observe l A w = Observe l B w ∧
  Notify sem l A w = Notify sem l B w ∧
  ∀ c w', Observe l B w = Returns c w' → c ∈ registered l (String A) w'.
Proof.
  intros HAB. rewrite !Notify_cases, !Observe_cases, HAB. split_and!; [done..|].
  intros c w'. unfold registered, registry_map.
  destruct (ObserverLock l); [|done].
  destruct (observers_ref l) as [a|]; [|done].
  destruct (maps w !! a) as [o|] eqn:Ho; [|done].
  intros [= <- <-]. simpl.
  rewrite list_lookup_insert_eq by (by eapply lookup_lt_Some).
  rewrite lookup_insert_eq. simpl. set_solver.
Qed.

Lemma keys_are_their_text_witness :
  Observe first_registry x_key first_world = Observe first_registry topic_key first_world ∧
  Notify PerLoop first_registry x_key first_world =
    Notify PerLoop first_registry topic_key first_world ∧
  ∀ c w', Observe first_registry topic_key first_world = Returns c w' →
    c ∈ registered first_registry (String x_key) w'.
Proof.
  apply (keys_are_their_text PerLoop first_registry x_key topic_key first_world).
  reflexivity.
Defined.

(** ** The lock *)

(** X4.  The receiver is copied with its mutexes as they are.  A call of
    [Observe] or [Notify] made on a registry value whose own [ObserverLock]
    is held blocks in [Lock] and leaves the world as it was; and it blocks
    for good: whatever the other calls, the goroutines and the readers do
    afterwards, the call is never scheduled and is still at its [Lock],
    because nothing else can reach the copy it waits for. *)
Theorem call_with_held_lock_blocks_for_good (sem : loopvar) (l : ConcurrentObservable)
    (k : Key) (sched : list action) (m m' : Machine) (i : nat) (f : frame) :
  ObserverLock l = Locked →
  f = ObserveLock l k ∨ f = NotifyLock l k →
  frames m !! i = Some f →
  run sem sched m = Some m' →
  Observe l k (world m) = Blocks (world m) ∧
  Notify sem l k (world m) = Blocks (world m) ∧
  frames m' !! i = Some f ∧ Call i ∉ sched.
Proof.
  intros Hl Hf Hi Hrun. rewrite Observe_cases, Notify_cases, Hl.
  split; [done|]. split; [done|].
  revert m Hi Hrun. induction sched as [|a sched IH]; intros m Hi Hrun; simpl in Hrun.
  - injection Hrun as <-. split; [done|]. apply not_elem_of_nil.
  - destruct (step sem a m) as [m1|] eqn:Hs; [|done].
    assert (frames m1 !! i = Some f ∧ a ≠ Call i) as [Hi1 Hne].
    { destruct a as [i'|j|c j]; simpl in Hs.
      - destruct (frames m !! i') as [f0|] eqn:Hi'; [|done].
        destruct (step_frame sem f0 (world m)) as [[f1 w1]|] eqn:Hf0; [|done].
        injection Hs as <-. simpl.
        destruct (decide (i' = i)) as [->|Hne].
        + rewrite Hi in Hi'. injection Hi' as <-.
          destruct Hf as [-> | ->]; simpl in Hf0; unfold next in Hf0;
            by rewrite Hl in Hf0.
        + split; [|congruence]. by rewrite list_lookup_insert_ne.
      - destruct (run_go j (world m)); [|done]. by injection Hs as <-.
      - destruct (recv c j (world m)) as [[b w1]|]; [|done]. by injection Hs as <-. }
    destruct (IH m1 Hi1 Hrun) as [Hend Hnot]. split; [done|].
    by apply not_elem_of_cons.
Qed.

Lemma call_with_held_lock_blocks_for_good_witness :
  let l := {| DataLock := RWFree; ObserverLock := Locked; observers_ref := Some 0 |} in
  let m := {| world := first_world;
              frames := [ObserveLock first_registry x_key; ObserveLock l x_key] |} in
  ∃ m',
    run PerLoop [Call 0; Call 0; Call 0; Call 0; Call 0] m = Some m' ∧
    frames m' !! 0 = Some (Returned (Some 0)) ∧
    Observe l x_key (world m) = Blocks (world m) ∧
    Notify PerLoop l x_key (world m) = Blocks (world m) ∧
    frames m' !! 1 = Some (ObserveLock l x_key) ∧
    Call 1 ∉ [Call 0; Call 0; Call 0; Call 0; Call 0].
Proof.
  intros l m. eexists. split; [vm_compute; reflexivity|]. split; [reflexivity|].
  apply (call_with_held_lock_blocks_for_good PerLoop l x_key
           [Call 0; Call 0; Call 0; Call 0; Call 0] m _ 1 (ObserveLock l x_key)).
  - reflexivity.
  - left. reflexivity.
  - reflexivity.
  - vm_compute. reflexivity.
Defined.

(** X5.  The lock excludes nobody.  A call of [Observe] or [Notify] made on a
    registry value whose own [ObserverLock] is free gets past its [Lock] at
    once and holds its lock, in every state of the machine: also while other
    calls on the same registry are between their [Lock] and their [Unlock].
    What a call locks is its own copy. *)
Theorem Lock_excludes_nobody (sem : loopvar) (m : Machine) (i : nat)
    (l : ConcurrentObservable) (k : Key) :
  ObserverLock l = Unlocked →
  frames m !! i = Some (ObserveLock l k) ∨ frames m !! i = Some (NotifyLock l k) →
  ∃ m', step sem (Call i) m = Some m' ∧ world m' = world m ∧
        (∀ j, j ≠ i → frames m' !! j = frames m !! j) ∧
        ∃ f, frames m' !! i = Some f ∧ holds_lock f = true.
Proof.
  intros Hl Hi.
  destruct (Lock_never_waits sem m i l k Hl Hi) as (m' & Hs & Hw & f & Hf & Hh).
  exists m'. split_and!; [done..| |by exists f].
  intros j Hj. unfold step in Hs.
  destruct (frames m !! i) as [f0|]; [|done].
  destruct (step_frame sem f0 (world m)) as [[f1 w1]|]; [|done].
  injection Hs as <-. simpl. by rewrite list_lookup_insert_ne.
Qed.

Lemma Lock_excludes_nobody_witness :
  let m := {| world := set_chans S first_world;
              frames := [ObserveAssign first_registry Locked 0 "x" [0];
                         ObserveLock first_registry x_key] |} in
  holds_lock (ObserveAssign first_registry Locked 0 "x" [0]) = true ∧
  ∃ m', step PerLoop (Call 1) m = Some m' ∧ world m' = world m ∧
        (∀ j, j ≠ 1 → frames m' !! j = frames m !! j) ∧
        ∃ f, frames m' !! 1 = Some f ∧ holds_lock f = true.
Proof.
  intros m. split; [reflexivity|].
  apply (Lock_excludes_nobody PerLoop m 1 first_registry x_key).
  - reflexivity.
  - left. reflexivity.
Defined.

(** ** [Notify] does not wait *)

Lemma range_go_started sem s v w w' :
  range_go sem s v w = Returns tt w' →
  ∃ new, gos w' = gos w ++ new ∧ length new = length s ∧
         forallb is_closure new = true.
Proof.
  revert v w. induction s as [|c s IH]; intros v w; simpl.
  - intros [= <-]. exists []. by rewrite app_nil_r.
  - unfold bind.
    destruct (bind_var sem v c w) as [a w1| |] eqn:Hb; [|by destruct sem, v..].
    simpl. intros Hr. destruct (IH _ _ Hr) as (new & Hg & Hlen & Hall).
    exists (Closure a :: new). simpl in Hg. rewrite Hg, <- app_assoc.
    assert (gos w1 = gos w) as -> by (destruct sem, v; simpl in Hb; by simplify_eq).
    split_and!; [done|simpl; by rewrite Hlen|done].
Qed.

Lemma run_NotifyRange sem s v w w' :
  range_go sem s v w = Returns tt w' →
  run sem (replicate (S (length s)) (Call 0))
    {| world := w; frames := [NotifyRange Locked s v] |} =
  Some {| world := w'; frames := [Returned None] |}.
Proof.
  revert v w. induction s as [|c s IH]; intros v w; simpl.
  - by intros [= <-].
  - unfold next, bind.
    destruct (bind_var sem v c w) as [a w1| |] eqn:Hb; [|by destruct sem, v..].
    simpl. intros Hr. by apply IH in Hr.
Qed.

(** X6.  [Notify] does not wait for anybody.  On a usable registry with [K]
    channels registered under the key's text the call returns after [K + 3]
    statements of its own, with no goroutine having run and no reader
    around.  It has then started [K] goroutines, none of which has run,
    has made no channel and has changed no map; the world is the one the
    function [Notify] returns. *)
Theorem Notify_returns_without_readers (sem : loopvar) (l : ConcurrentObservable)
    (k : Key) (w : World) :
  usable l w →
  ∃ m new,
    run sem (replicate (length (registered l (String k) w) + 3) (Call 0))
      {| world := w; frames := [NotifyLock l k] |} = Some m ∧
    frames m = [Returned None] ∧
    Notify sem l k w = Returns tt (world m) ∧
    gos (world m) = gos w ++ new ∧
    length new = length (registered l (String k) w) ∧
    forallb is_closure new = true ∧
    chans (world m) = chans w ∧ maps (world m) = maps w.
Proof.
  intros [Hl [o Ho]].
  destruct (Notify_usable sem l k w o Hl Ho) as (w' & HN & Hr & Hm & Hc).
  destruct (range_go_started _ _ _ _ _ Hr) as (new & Hg & Hlen & Hall).
  exists {| world := w'; frames := [Returned None] |}, new.
  unfold registered. rewrite Ho. split_and!; try done.
  rewrite Nat.add_comm. change (3 + ?n) with (S (S (S n))).
  cbn [replicate run step frames lookup list_lookup step_frame world].
  unfold next. rewrite Hl. cbn [Lock ret insert list_insert frames lookup list_lookup
    step_frame world].
  unfold next. apply registry_map_Some in Ho as (a & Ha & Ho).
  rewrite Ha. cbn [map_index]. rewrite Ho. cbn [insert list_insert].
  by apply run_NotifyRange.
Qed.

Lemma Notify_returns_without_readers_witness :
  ∃ m new,
    run PerLoop (replicate (length (registered first_registry (String x_key) observed_twice) + 3)
                   (Call 0))
      {| world := observed_twice; frames := [NotifyLock first_registry x_key] |} = Some m ∧
    frames m = [Returned None] ∧
    Notify PerLoop first_registry x_key observed_twice = Returns tt (world m) ∧
    gos (world m) = gos observed_twice ++ new ∧
    length new = length (registered first_registry (String x_key) observed_twice) ∧
    forallb is_closure new = true ∧
    chans (world m) = chans observed_twice ∧ maps (world m) = maps observed_twice.
Proof.
  apply (Notify_returns_without_readers PerLoop first_registry x_key observed_twice).
  split; [reflexivity|]. eexists. vm_compute. reflexivity.
Defined.

(** ** The loop variable, in general *)

Lemma observed_twice_ok : world_ok observed_twice.
Proof.
  apply (world_ok_do_ops PerLoop first_registry
           [DoObserve x_key; DoObserve x_key] first_world), first_world_ok.
Qed.

(** X7.  Built with one variable for the loop (Go up to 1.21): when the
    goroutines a call of [Notify] starts run after the call, in any order,
    all of them send on the channel that was registered last under the key's
    text.  With [K] registered channels the last one gets [K] sends and the
    others get none. *)
Theorem one_loop_variable_signals_the_last_observer (l : ConcurrentObservable) (k : Key)
    (w : World) (o : observers) (s : list chan) (c : chan) :
  world_ok w → ObserverLock l = Unlocked → registry_map l w = Some o →
  registered l (String k) w = s ++ [c] →
  ∃ w', Notify PerLoop l k w = Returns tt w' ∧
    ∀ js w'', run_gos js w' = Some w'' →
      targets w'' = targets w ++ replicate (S (length s)) c ∧
      (settled w'' → pending w'' = targets w ++ replicate (S (length s)) c).
Proof.
  intros Hw Hl Ho Hreg.
  destruct (Notify_usable PerLoop l k w o Hl Ho) as (w' & HN & _).
  exists w'. split; [done|]. intros js w'' Hjs.
  destruct (Notify_PerLoop_last_only l k w o s c js Hw Hl Ho Hreg) as (w1 & HN1 & Ht).
  rewrite HN in HN1. injection HN1 as <-. specialize (Ht w'' Hjs).
  split; [done|]. intros Hs. by rewrite pending_settled.
Qed.

Lemma one_loop_variable_signals_the_last_observer_witness :
  ∃ w', Notify PerLoop first_registry x_key observed_twice = Returns tt w' ∧
    ∀ js w'', run_gos js w' = Some w'' →
      targets w'' = targets observed_twice ++ replicate (S (length [0])) 1 ∧
      (settled w'' →
         pending w'' = targets observed_twice ++ replicate (S (length [0])) 1).
Proof.
  apply (one_loop_variable_signals_the_last_observer first_registry x_key observed_twice
           (default ∅ (registry_map first_registry observed_twice)) [0] 1).
  - apply observed_twice_ok.
  - reflexivity.
  - vm_compute. reflexivity.
  - vm_compute. reflexivity.
Defined.

(** X8.  Built with a variable for each iteration (Go 1.22): however the
    statements of a call of [Notify] on a usable registry, the goroutines
    and the readers are interleaved, once the call has returned exactly one
    send was started for each channel registered under the key's text when
    the call began, in their order, beside the sends there were before; and
    once every goroutine has ended, these are the values the readers
    received. *)
Theorem a_variable_per_iteration_signals_every_observer (l : ConcurrentObservable)
    (k : Key) (w : World) (o : observers) (sched : list action) (m : Machine)
    (r : option chan) :
  world_ok w → ObserverLock l = Unlocked → registry_map l w = Some o →
  run PerIteration sched {| world := w; frames := [NotifyLock l k] |} = Some m →
  frames m = [Returned r] →
  all_sends (world m) = all_sends w ++ registered l (String k) w ∧
  (all_exited (world m) = true →
     delivered (world m) = all_sends w ++ registered l (String k) w).
Proof.
  intros Hw Hl Ho Hrun Hr.
  by apply (Notify_PerIteration_any_schedule l k w o sched m Hw Hl Ho Hrun r).
Qed.

Lemma a_variable_per_iteration_signals_every_observer_witness :
  ∃ m,
    run PerIteration
      [Call 0; Call 0; Call 0; Go 0; Recv 0 0; Call 0; Go 1; Call 0; Recv 1 1]
      {| world := observed_twice; frames := [NotifyLock first_registry x_key] |} = Some m ∧
    all_exited (world m) = true ∧
    all_sends (world m) =
      all_sends observed_twice ++ registered first_registry (String x_key) observed_twice ∧
    (all_exited (world m) = true →
       delivered (world m) =
         all_sends observed_twice ++ registered first_registry (String x_key) observed_twice).
Proof.
  eexists. split; [vm_compute; reflexivity|]. split; [reflexivity|].
  apply (a_variable_per_iteration_signals_every_observer first_registry x_key observed_twice
           (default ∅ (registry_map first_registry observed_twice))
           [Call 0; Call 0; Call 0; Go 0; Recv 0 0; Call 0; Go 1; Call 0; Recv 1 1]
           _ None).
  - apply observed_twice_ok.
  - reflexivity.
  - vm_compute. reflexivity.
  - vm_compute. reflexivity.
  - reflexivity.
Defined.

(** ** Registries do not share *)

Lemma do_op_other_registry sem l1 l2 op w :
  observers_ref l1 ≠ observers_ref l2 →
  registry_map l1 (final (do_op sem l2 op w)) = registry_map l1 w.
Proof.
  intros Hne. destruct op as [k|k|j|c j]; simpl.
  - unfold bind. rewrite Observe_cases.
    destruct (ObserverLock l2); [|done].
    destruct (observers_ref l2) as [a2|] eqn:H2; [|done].
    destruct (maps w !! a2) as [o|]; [|done]. simpl.
    unfold registry_map. destruct (observers_ref l1) as [a1|]; [|done]. simpl.
    apply list_lookup_insert_ne. congruence.
  - pose proof (Notify_maps sem l2 k w) as HN. unfold bind.
    unfold registry_map. destruct (Notify sem l2 k w); simpl in *; by rewrite HN.
  - destruct (run_go j w) as [w'|] eqn:Hj; [|done].
    by apply run_go_Some in Hj as (v & c & _ & _ & ->).
  - destruct (recv c j w) as [[b w']|] eqn:Hj; [|done].
    by apply recv_Some in Hj as [_ ->].
Qed.

Lemma do_ops_other_registry sem l1 l2 os w :
  observers_ref l1 ≠ observers_ref l2 →
  registry_map l1 (final (do_ops sem l2 os w).2) = registry_map l1 w.
Proof.
  intros Hne. revert w. induction os as [|op os IH]; intros w; simpl; [done|].
  pose proof (do_op_other_registry sem l1 l2 op w Hne) as Hop.
  destruct (do_op sem l2 op w) as [e w'| |]; simpl in *; [|done..].
  specialize (IH w'). destruct (do_ops sem l2 os w'). simpl in *. congruence.
Qed.

(** X9.  Every call of the constructor makes a map of its own, and there is
    no state outside the registries.  A client builds a registry and works
    on it, then builds a second one and works on that: the two registry
    values refer to different maps, the work on the second leaves every
    entry of the first as it was, and each holds exactly its own
    subscriptions. *)
Theorem two_registries_share_nothing (sem : loopvar) (w0 : World) (os1 os2 : list op) :
  ∃ l1 w1 es1 w2 l2 w3 es2 w4,
    NewConcurrentObservable w0 = Returns l1 w1 ∧
    do_ops sem l1 os1 w1 = (es1, Returns tt w2) ∧
    NewConcurrentObservable w2 = Returns l2 w3 ∧
    do_ops sem l2 os2 w3 = (es2, Returns tt w4) ∧
    observers_ref l1 ≠ observers_ref l2 ∧
    ∀ key, registered l1 key w4 = registered l1 key w2 ∧
           registered l1 key w4 = observed_under key es1 ∧
           registered l2 key w4 = observed_under key es2.
Proof.
  destruct (NewConcurrentObservable_usable w0) as (l1 & w1 & HN1 & Hl1 & Ho1 & _).
  destruct (do_ops_usable sem l1 os1 w1 ∅ Hl1 Ho1)
    as (es1 & w2 & o1 & Hrun1 & _ & Ho1' & Hes1).
  destruct (NewConcurrentObservable_usable w2)
    as (l2 & w3 & HN2 & Hl2 & Ho2 & Hr2 & _ & _ & _ & Hm3).
  destruct (do_ops_usable sem l2 os2 w3 ∅ Hl2 Ho2)
    as (es2 & w4 & o2 & Hrun2 & _ & Ho2' & Hes2).
  assert (observers_ref l1 ≠ observers_ref l2) as Hne.
  { apply registry_map_Some in Ho1' as (a1 & Ha1 & Hlook). rewrite Ha1, Hr2.
    apply lookup_lt_Some in Hlook. intros [= ->]. lia. }
  exists l1, w1, es1, w2, l2, w3, es2, w4. split_and!; [done..|].
  assert (registry_map l1 w4 = Some o1) as Ho14.
  { pose proof (do_ops_other_registry sem l1 l2 os2 w3 Hne) as Hsame.
    rewrite Hrun2 in Hsame. simpl in Hsame. rewrite Hsame.
    apply registry_map_Some in Ho1' as (a1 & Ha1 & Hlook).
    unfold registry_map. rewrite Ha1, Hm3. by apply lookup_app_l_Some. }
  intros key. unfold registered. rewrite Ho14, Ho1', Ho2', Hes1, Hes2, !lookup_empty.
  done.
Qed.

(** ** What a statement of a call can do to the rest *)

Lemma step_frame_effect sem f w f' w' :
  step_frame sem f w = Some (f', w') →
  (∃ new, gos w' = gos w ++ new) ∧ chans w ≤ chans w' ∧
  (held f' = held f ∨ held f' = None ∨
   (held f = None ∧ held f' = Some (chans w) ∧ chans w' = S (chans w))).
Proof.
  assert (∀ g : list goroutine, ∃ new, g = g ++ new) as Hnil
    by (intros g; exists []; by rewrite app_nil_r).
  intros H. destruct f as [l k|l k mu|l k mu c|l mu c key s|mu c|l k|l k mu|mu [|c s] v|mu msg|r|msg];
    simpl in H; unfold next in H.
  - destruct (ObserverLock l); simpl in H; simplify_eq. auto.
  - simpl in H. simplify_eq. simpl. split_and!; [done|lia|auto].
  - destruct (observers_ref l) as [a|]; simpl in H;
      [destruct (maps w !! a)|]; simplify_eq; auto.
  - destruct (observers_ref l) as [a|]; simpl in H;
      [destruct (maps w !! a)|]; simplify_eq; simpl; auto.
  - destruct mu; simpl in H; simplify_eq; auto.
  - destruct (ObserverLock l); simpl in H; simplify_eq. auto.
  - destruct (observers_ref l) as [a|]; simpl in H;
      [destruct (maps w !! a)|]; simplify_eq; auto.
  - destruct mu; simpl in H; simplify_eq; auto.
  - unfold bind in H.
    destruct (bind_var sem v c w) as [a w1| |] eqn:Hb; [|by destruct sem, v..].
    simpl in H. simplify_eq. simpl.
    assert (gos w1 = gos w ∧ chans w1 = chans w) as [-> ->]
      by (destruct sem, v; simpl in Hb; by simplify_eq).
    split_and!; [by eexists|done|auto].
  - destruct mu; simpl in H; simplify_eq; auto.
  - done.
  - done.
Qed.

Lemma step_goroutine sem a m m1 j g :
  step sem a m = Some m1 → gos (world m) !! j = Some g → is_closure g = false →
  gos (world m1) !! j = Some g ∨
  ∃ c b, g = Sending c b ∧ a = Recv c j ∧ gos (world m1) !! j = Some (Exited c b).
Proof.
  intros Hs Hj Hg. destruct a as [i|j'|c' j']; simpl in Hs.
  - destruct (frames m !! i) as [f|]; [|done].
    destruct (step_frame sem f (world m)) as [[f1 w1]|] eqn:Hf; [|done].
    injection Hs as <-. simpl. left.
    apply step_frame_effect in Hf as ([new Hnew] & _). rewrite Hnew.
    by apply lookup_app_l_Some.
  - destruct (run_go j' (world m)) as [w1|] eqn:Hr; [|done]. injection Hs as <-.
    apply run_go_Some in Hr as (v & c & Hj' & _ & ->). simpl. left.
    rewrite list_lookup_insert_ne; [done|]. intros ->. rewrite Hj in Hj'.
    injection Hj' as ->. done.
  - destruct (recv c' j' (world m)) as [[b w1]|] eqn:Hr; [|done]. injection Hs as <-.
    apply recv_Some in Hr as [Hj' ->]. simpl.
    destruct (decide (j' = j)) as [->|Hne].
    + right. rewrite Hj in Hj'. injection Hj' as ->. exists c', b.
      split_and!; [done..|]. apply list_lookup_insert_eq. by eapply lookup_lt_Some.
    + left. by rewrite list_lookup_insert_ne.
Qed.

(** X10.  A send is never dropped and never redirected.  A goroutine that is
    blocked in its send on a channel is, after anything the calls, the other
    goroutines and the readers do, either still blocked in that send or
    ended because a reader received its value from that channel; and when no
    reader receives, it is still blocked: the goroutine stays for as long as
    nobody reads. *)
Theorem a_send_waits_for_its_reader (sem : loopvar) (sched : list action)
    (m m' : Machine) (j : nat) (c : chan) (b : bool) :
  run sem sched m = Some m' →
  gos (world m) !! j = Some (Sending c b) →
  (gos (world m') !! j = Some (Sending c b) ∨ gos (world m') !! j = Some (Exited c b)) ∧
  (no_reader sched = true → gos (world m') !! j = Some (Sending c b)).
Proof.
  revert m. induction sched as [|a sched IH]; intros m Hrun Hj; simpl in Hrun.
  - injection Hrun as <-. auto.
  - destruct (step sem a m) as [m1|] eqn:Hs; [|done].
    destruct (step_goroutine sem a m m1 j _ Hs Hj eq_refl)
      as [Hj1|(c' & b' & [= <- <-] & -> & Hj1)].
    + destruct (IH m1 Hrun Hj1) as [Hor Hno]. split; [done|].
      simpl. intros [_ Hnr]%andb_prop. by apply Hno.
    + split; [|done]. right.
      clear IH Hs Hj. revert m1 Hrun Hj1.
      induction sched as [|a' sched IH]; intros m1 Hrun Hj1; simpl in Hrun.
      * by injection Hrun as <-.
      * destruct (step sem a' m1) as [m2|] eqn:Hs; [|done].
        destruct (step_goroutine sem a' m1 m2 j _ Hs Hj1 eq_refl)
          as [Hj2|(c' & b' & [=] & _)].
        by apply (IH m2).
Qed.

Lemma a_send_waits_for_its_reader_witness :
  let m := {| world := {| maps := [∅]; chans := 1; vars := [0];
                          gos := [Sending 0 true] |};
              frames := [ObserveLock first_registry x_key] |} in
  ∃ m',
    run PerLoop [Call 0; Call 0; Call 0; Call 0; Call 0] m = Some m' ∧
    (gos (world m') !! 0 = Some (Sending 0 true) ∨
     gos (world m') !! 0 = Some (Exited 0 true)) ∧
    (no_reader [Call 0; Call 0; Call 0; Call 0; Call 0] = true →
     gos (world m') !! 0 = Some (Sending 0 true)).
Proof.
  intros m. eexists. split; [vm_compute; reflexivity|].
  apply (a_send_waits_for_its_reader PerLoop [Call 0; Call 0; Call 0; Call 0; Call 0] m).
  - vm_compute. reflexivity.
  - reflexivity.
Defined.

(** ** Channels of concurrent calls *)

Lemma distinct_held_step sem a m m1 :
  distinct_held m → step sem a m = Some m1 → distinct_held m1.
Proof.
  intros Hinv Hs. destruct a as [i|j|c j]; simpl in Hs.
  - destruct (frames m !! i) as [f|] eqn:Hi; [|done].
    destruct (step_frame sem f (world m)) as [[f1 w1]|] eqn:Hf; [|done].
    injection Hs as <-.
    apply step_frame_effect in Hf as (_ & Hle & Hheld).
    assert (i < length (frames m)) as Hlen by (by eapply lookup_lt_Some).
    intros i' f' c Hi' Hc. simpl in *.
    destruct (decide (i' = i)) as [->|Hne].
    + rewrite list_lookup_insert_eq in Hi' by done. injection Hi' as <-.
      destruct Hheld as [Heq|[Hnone|(Hnone & Hnew & Hch)]].
      * rewrite Heq in Hc. destruct (Hinv i f c Hi Hc) as [Hlt Hothers].
        split; [lia|]. intros j f'' Hj Hj'.
        rewrite list_lookup_insert_ne in Hj' by done. by eapply Hothers.
      * by rewrite Hnone in Hc.
      * rewrite Hnew in Hc. injection Hc as <-. split; [lia|].
        intros j f'' Hj Hj' Hc'.
        rewrite list_lookup_insert_ne in Hj' by done.
        destruct (Hinv j f'' _ Hj' Hc') as [Hlt _]. lia.
    + rewrite list_lookup_insert_ne in Hi' by done.
      destruct (Hinv i' f' c Hi' Hc) as [Hlt Hothers].
      split; [lia|]. intros j f'' Hj Hj'.
      destruct (decide (j = i)) as [->|Hji].
      * rewrite list_lookup_insert_eq in Hj' by done. injection Hj' as <-.
        destruct Hheld as [Heq|[Hnone|(Hnone & Hnew & Hch)]].
        -- rewrite Heq. by eapply Hothers.
        -- by rewrite Hnone.
        -- rewrite Hnew. intros [= <-]. lia.
      * rewrite list_lookup_insert_ne in Hj' by done. by eapply Hothers.
  - destruct (run_go j (world m)) as [w1|] eqn:Hr; [|done]. injection Hs as <-.
    by apply run_go_Some in Hr as (v & c & _ & _ & ->).
  - destruct (recv c j (world m)) as [[b w1]|] eqn:Hr; [|done]. injection Hs as <-.
    by apply recv_Some in Hr as [_ ->].
Qed.

Lemma distinct_held_run sem sched m m' :
  distinct_held m → run sem sched m = Some m' → distinct_held m'.
Proof.
  revert m. induction sched as [|a sched IH]; intros m Hinv Hrun; simpl in Hrun.
  - by injection Hrun as <-.
  - destruct (step sem a m) as [m1|] eqn:Hs; [|done].
    eapply IH; [|done]. by eapply distinct_held_step.
Qed.

(** X11.  The channels stay distinct when the calls race.  Any number of
    calls of [Observe] and [Notify], on any registry values, start together
    and are interleaved in any way with each other, the goroutines and the
    readers: two calls of [Observe] never return the same channel, and a
    returned channel is one that was made.  (What is lost in a race is the
    registration, not the identity of the channel.) *)
Theorem racing_calls_return_distinct_channels (sem : loopvar) (sched : list action)
    (m m' : Machine) (i j : nat) (c : chan) :
  forallb starting (frames m) = true →
  run sem sched m = Some m' →
  frames m' !! i = Some (Returned (Some c)) →
  c < chans (world m') ∧ (j ≠ i → frames m' !! j ≠ Some (Returned (Some c))).
Proof.
  intros Hstart Hrun Hi.
  assert (distinct_held m) as Hinv.
  { intros i0 f c0 Hi0 Hc. rewrite forallb_forall in Hstart.
    apply list_elem_of_lookup_2, list_elem_of_In, Hstart in Hi0.
    by destruct f. }
  destruct (distinct_held_run sem sched m m' Hinv Hrun i _ c Hi eq_refl)
    as [Hlt Hothers].
  split; [done|]. intros Hne Hj. by eapply (Hothers j).
Qed.

Lemma racing_calls_return_distinct_channels_witness :
  let m := {| world := first_world;
              frames := [ObserveLock first_registry x_key;
                         ObserveLock first_registry x_key] |} in
  ∃ m',
    run PerLoop [Call 0; Call 1; Call 0; Call 1; Call 0; Call 1; Call 0; Call 1;
                 Call 0; Call 1] m = Some m' ∧
    frames m' !! 0 = Some (Returned (Some 0)) ∧
    0 < chans (world m') ∧ (1 ≠ 0 → frames m' !! 1 ≠ Some (Returned (Some 0))).
Proof.
  intros m. eexists. split; [vm_compute; reflexivity|]. split; [reflexivity|].
  apply (racing_calls_return_distinct_channels PerLoop
           [Call 0; Call 1; Call 0; Call 1; Call 0; Call 1; Call 0; Call 1; Call 0; Call 1]
           m _ 0 1 0).
  - reflexivity.
  - vm_compute. reflexivity.
  - reflexivity.
Defined.

(** ** Goroutines add up *)

(** X12.  Nothing in the registry ends a goroutine or removes a channel, so
    the goroutines of repeated notifications add up.  On a usable registry
    with [K] channels registered under the key's text, [n] calls of [Notify]
    on that key, with no reader in between, all return and leave [n * K]
    goroutines more than there were, every one of them waiting to run; the
    registered channels are the same as before. *)
Theorem notifications_pile_up (sem : loopvar) (l : ConcurrentObservable) (k : Key)
    (w : World) (n : nat) :
  usable l w →
  ∃ es w' new,
    do_ops sem l (replicate n (DoNotify k)) w = (es, Returns tt w') ∧
    gos w' = gos w ++ new ∧
    length new = n * length (registered l (String k) w) ∧
    forallb is_closure new = true ∧
    chans w' = chans w ∧
    ∀ key, registered l key w' = registered l key w.
Proof.
  intros [Hl Ho]. revert w Ho. induction n as [|n IH]; intros w [o Ho].
  - exists [], w, []. by rewrite app_nil_r.
  - destruct (Notify_usable sem l k w o Hl Ho) as (w1 & HN & Hr & Hm & Hc).
    destruct (range_go_started _ _ _ _ _ Hr) as (new1 & Hg1 & Hlen1 & Hall1).
    assert (registry_map l w1 = Some o) as Ho1
      by (unfold registry_map in *; by rewrite Hm).
    assert (∀ key, registered l key w1 = registered l key w) as Hreg
      by (intros key; unfold registered; by rewrite Ho1, Ho).
    destruct (IH w1 (ex_intro _ o Ho1)) as (es & w' & new & Hrun & Hg & Hlen & Hall & Hch & Hsame).
    exists (Notified (String k) :: es), w', (new1 ++ new).
    cbn [replicate do_ops do_op]. unfold bind at 1. rewrite HN. cbn [ret]. rewrite Hrun.
    split_and!; [done| | | |congruence|].
    + by rewrite Hg, Hg1, app_assoc.
    + rewrite length_app, Hlen, Hlen1, Hreg. unfold registered. rewrite Ho. simpl. lia.
    + rewrite forallb_app, Hall1, Hall. done.
    + intros key. by rewrite Hsame, Hreg.
Qed.

Lemma notifications_pile_up_witness :
  ∃ es w' new,
    do_ops PerLoop first_registry (replicate 3 (DoNotify x_key)) observed_twice
      = (es, Returns tt w') ∧
    gos w' = gos observed_twice ++ new ∧
    length new = 3 * length (registered first_registry (String x_key) observed_twice) ∧
    forallb is_closure new = true ∧
    chans w' = chans observed_twice ∧
    ∀ key, registered first_registry key w' = registered first_registry key observed_twice.
Proof.
  apply (notifications_pile_up PerLoop first_registry x_key observed_twice 3).
  split; [reflexivity|]. eexists. vm_compute. reflexivity.
Defined.
